(** * Polynome2D: sparse bivariate polynomials with a per-variable degree bound

    A shallow embedding of [src/Polynome.py].  Numbers are exact rationals
    ([Qc], canonical fractions with Leibniz equality); exponents and the
    degree bound are Python integers ([Z]).  Python exceptions are values of
    a small error type, threaded through a result monad. *)

From Stdlib Require Import QArith Qcanon ZArith Lia Permutation Sorted.
From stdpp Require Import base option list numbers strings pretty.

Local Open Scope Z_scope.
Local Open Scope Qc_scope.

(** ** Exceptions and the result monad *)

(** The three ways a call can raise.  Both [ValueError]s of the source are
    told apart by their message: the constructor's one carries the offending
    exponent pair and the bound (line 25), the operators' one only says that
    the degrees differ (lines 71, 96, 121).  [ZeroDivisionError] is what
    Python raises for a division by zero and for zero to a negative power. *)
Inductive error : Type :=
  | DegreeExceeded (deg_x deg_y degree : Z)
  | DegreeMismatch
  | ZeroDivisionError.

Inductive result (A : Type) : Type :=
  | Ok (a : A)
  | Raise (e : error).
Arguments Ok {A} a.
Arguments Raise {A} e.

#[global] Instance result_ret : MRet result := fun _ a => Ok a.
#[global] Instance result_bind : MBind result := fun _ _ f r =>
  match r with
  | Ok a => f a
  | Raise e => Raise e
  end.

(** A [for] loop over a list whose body may raise: the state is threaded
    from one iteration to the next and the first exception ends the loop. *)
Fixpoint for_each {A S : Type} (body : S -> A -> result S) (l : list A) (s : S)
  : result S :=
  match l with
  | [] => Ok s
  | a :: l' => s' ← body s a; for_each body l' s'
  end.

(** Strict lifting of a binary operation: the left operand is evaluated
    first, and an exception of either operand is the exception of the whole. *)
Definition lift2 {A B C : Type} (f : A -> B -> C) (r1 : result A) (r2 : result B)
  : result C :=
  a ← r1; b ← r2; Ok (f a b).

(** ** Python arithmetic on exact numbers *)

(** The source is duck-typed; the embedding fixes the numbers to exact
    rationals, on which these two operations are those of Python's
    [fractions.Fraction].  For [int] operands [**] with a non-negative
    exponent is the same exact operation; [/] on [int] and [float] operands,
    and [**] on a [float] base or with a negative exponent on an [int] base,
    produce a rounded [float] and may raise [OverflowError], which is outside
    this embedding. *)

(** [x ** n] for an integer exponent: zero to a negative power raises. *)
Definition py_pow (x : Qc) (n : Z) : result Qc :=
  if (0 <=? n)%Z then Ok (x ^ Z.to_nat n)
  else if decide (x = 0) then Raise ZeroDivisionError
  else Ok (/ (x ^ Z.to_nat (- n))).

(** [x / y]: true division, raising on a zero divisor. *)
Definition py_div (x y : Qc) : result Qc :=
  if decide (y = 0) then Raise ZeroDivisionError else Ok (x / y).

(** ** Data model *)

(** A term is the tuple [(coef, (deg_x, deg_y))]. *)
Definition term : Type := Qc * (Z * Z).

Definition coef_of (t : term) : Qc := fst t.
Definition deg_x_of (t : term) : Z := fst (snd t).
Definition deg_y_of (t : term) : Z := snd (snd t).

Record Polynome2D : Type := mkPolynome2D {
  degree : Z;
  coefficients : list term
}.

(** ** Construction *)

(** [_validate_coefficients]: the first term with an exponent above the
    bound raises; otherwise the list is returned as it came. *)
Definition _validate_coefficients (degree : Z) (coefficients : list term)
  : result (list term) :=
  _ ← for_each (fun (_ : unit) '(coef, (deg_x, deg_y)) =>
         if (deg_x >? degree)%Z || (deg_y >? degree)%Z
         then Raise (DegreeExceeded deg_x deg_y degree)
         else Ok tt) coefficients tt;
  Ok coefficients.

(** [__init__]. *)
Definition Polynome2D_init (coefficients : list term) (degree : Z)
  : result Polynome2D :=
  cs ← _validate_coefficients degree coefficients;
  Ok (mkPolynome2D degree cs).

(** ** Evaluation *)

(** [eval]. *)
Definition eval (self : Polynome2D) (x y : Qc) : result Qc :=
  for_each (fun result '(coef, (deg_x, deg_y)) =>
      px ← py_pow x deg_x;
      py ← py_pow y deg_y;
      Ok (result + coef * px * py))
    (coefficients self) 0.

(** [gradient]. *)
Definition gradient (self : Polynome2D) (x y : Qc) : result (Qc * Qc) :=
  for_each (fun '(grad_x, grad_y) '(coef, (deg_x, deg_y)) =>
      grad_x ←
        (if (deg_x >? 0)%Z then
           px ← py_pow x (deg_x - 1);
           py ← py_pow y deg_y;
           Ok (grad_x + coef * Qc_of_Z deg_x * px * py)
         else Ok grad_x);
      grad_y ←
        (if (deg_y >? 0)%Z then
           px ← py_pow x deg_x;
           py ← py_pow y (deg_y - 1);
           Ok (grad_y + coef * Qc_of_Z deg_y * px * py)
         else Ok grad_y);
      Ok (grad_x, grad_y))
    (coefficients self) (0, 0).

(** ** Merging a term into an accumulating list *)

(** The inner [for i, (c, (dx, dy)) in enumerate(new_coeffs)] scan shared by
    the three operators: the index and the term of the first entry whose
    exponent pair is [(deg_x, deg_y)], counting from [i]. *)
Fixpoint first_match (deg_x deg_y : Z) (new_coeffs : list term) (i : nat)
  : option (nat * term) :=
  match new_coeffs with
  | [] => None
  | (coef_self, (deg_x_self, deg_y_self)) :: rest =>
      if (deg_x_self =? deg_x)%Z && (deg_y_self =? deg_y)%Z
      then Some (i, (coef_self, (deg_x_self, deg_y_self)))
      else first_match deg_x deg_y rest (S i)
  end.

(** One iteration of the outer loop: on a match the entry is overwritten in
    place with [combine coef_self coef], otherwise [(fresh coef, degs)] is
    appended. *)
Definition merge_term (combine : Qc -> Qc -> Qc) (fresh : Qc -> Qc)
    (new_coeffs : list term) (t : term) : list term :=
  let '(coef, (deg_x, deg_y)) := t in
  match first_match deg_x deg_y new_coeffs 0 with
  | Some (i, (coef_self, (deg_x_self, deg_y_self))) =>
      <[i := (combine coef_self coef, (deg_x_self, deg_y_self))]> new_coeffs
  | None => new_coeffs ++ [(fresh coef, (deg_x, deg_y))]
  end.

(** ** The operators *)

(** [__add__]. *)
Definition add (self other : Polynome2D) : result Polynome2D :=
  if decide (degree self ≠ degree other) then Raise DegreeMismatch
  else
    let new_coeffs :=
      foldl (merge_term Qcplus (fun c => c))
            (coefficients self) (coefficients other) in
    Polynome2D_init new_coeffs (degree self).

(** [__sub__]. *)
Definition sub (self other : Polynome2D) : result Polynome2D :=
  if decide (degree self ≠ degree other) then Raise DegreeMismatch
  else
    let new_coeffs :=
      foldl (merge_term Qcminus Qcopp)
            (coefficients self) (coefficients other) in
    Polynome2D_init new_coeffs (degree self).

(** The body of the double loop of [__mul__]. *)
Definition mul_step (degree : Z) (t1 : term) (new_coeffs : list term) (t2 : term)
  : list term :=
  let '(coef1, (deg_x1, deg_y1)) := t1 in
  let '(coef2, (deg_x2, deg_y2)) := t2 in
  let new_coef := coef1 * coef2 in
  let new_deg_x := (deg_x1 + deg_x2)%Z in
  let new_deg_y := (deg_y1 + deg_y2)%Z in
  if (new_deg_x <=? degree)%Z && (new_deg_y <=? degree)%Z
  then merge_term Qcplus (fun c => c) new_coeffs (new_coef, (new_deg_x, new_deg_y))
  else new_coeffs.

(** [__mul__]. *)
Definition mul (self other : Polynome2D) : result Polynome2D :=
  if decide (degree self ≠ degree other) then Raise DegreeMismatch
  else
    let new_coeffs :=
      foldl (fun new_coeffs t1 =>
               foldl (mul_step (degree self) t1) new_coeffs (coefficients other))
            [] (coefficients self) in
    Polynome2D_init new_coeffs (degree self).

(** ** Rendering *)

(** The sort key [lambda x: (x[1][0], x[1][1])] and Python's order on pairs
    of integers. *)
Definition sort_key (t : term) : Z * Z := (deg_x_of t, deg_y_of t).

Definition key_ltb (k1 k2 : Z * Z) : bool :=
  (k1.1 <? k2.1)%Z || ((k1.1 =? k2.1)%Z && (k1.2 <? k2.2)%Z).

(** [sorted(_, key=...)] is a builtin; it is modelled by its contract, a
    stable sort that only compares keys with [<]: insertion from the right,
    where a term goes in front of the first term whose key is not smaller. *)
Fixpoint insert_by_key (t : term) (l : list term) : list term :=
  match l with
  | [] => [t]
  | u :: l' =>
      if key_ltb (sort_key u) (sort_key t) then u :: insert_by_key t l'
      else t :: u :: l'
  end.

Definition sorted (l : list term) : list term := foldr insert_by_key [] l.

Section Render.
(** [str] of a coefficient is Python's own number formatting, which
    depends on the run-time type of the number ([3] or [3.0]) and is not
    determined by its value; it is a parameter of the rendering. *)
Variable str_coef : Qc -> string.

(** The f-string of line 152. *)
Definition format_term (t : term) : string :=
  let '(coef, (deg_x, deg_y)) := t in
  str_coef coef +:+ " * x^" +:+ pretty deg_x +:+ " * y^" +:+ pretty deg_y.

(** [__repr__]. *)
Definition repr (self : Polynome2D) : string :=
  let terms :=
    foldl (fun terms t =>
             if decide (coef_of t ≠ 0) then terms ++ [format_term t] else terms)
          [] (sorted (coefficients self)) in
  match terms with
  | [] => "0"
  | _ => String.concat " + " terms
  end.
End Render.

(** ** Integration *)

Section Integration.
(** [np.log] is numpy's; its values are not rational, so the embedding
    takes it as a parameter which may also fail to produce a number. *)
Variable np_log : Qc -> result Qc.

(** [integrer_x]; the keyword argument [y_value], 0 by default, is always
    given. *)
Definition integrer_x (self : Polynome2D) (a b y_value : Qc) : result Qc :=
  for_each (fun integral '(coef, (deg_x, deg_y)) =>
      if (deg_x >=? 0)%Z then
        if negb (deg_x =? -1)%Z then
          py ← py_pow y_value deg_y;
          pb ← py_pow b (deg_x + 1);
          pa ← py_pow a (deg_x + 1);
          q ← py_div (coef * py * (pb - pa)) (Qc_of_Z (deg_x + 1));
          Ok (integral + q)
        else
          py ← py_pow y_value deg_y;
          r ← py_div b a;
          ln ← np_log r;
          Ok (integral + coef * py * ln)
      else Ok integral)
    (coefficients self) 0.

(** [integrer_y]; likewise for [x_value]. *)
Definition integrer_y (self : Polynome2D) (c d x_value : Qc) : result Qc :=
  for_each (fun integral '(coef, (deg_x, deg_y)) =>
      if (deg_y >=? 0)%Z then
        if negb (deg_y =? -1)%Z then
          px ← py_pow x_value deg_x;
          pd ← py_pow d (deg_y + 1);
          pc ← py_pow c (deg_y + 1);
          q ← py_div (coef * px * (pd - pc)) (Qc_of_Z (deg_y + 1));
          Ok (integral + q)
        else
          px ← py_pow x_value deg_x;
          r ← py_div d c;
          ln ← np_log r;
          Ok (integral + coef * px * ln)
      else Ok integral)
    (coefficients self) 0.
End Integration.

(** The module-level demonstration: [coeffs1] and [poly] (lines 198-204). *)
Definition coeffs1 : list term :=
  [ (Qc_of_Z 3, (2, 0)%Z); (Qc_of_Z (-4), (0, 1)%Z); (Qc_of_Z 5, (1, 1)%Z) ].

Definition poly : Polynome2D := mkPolynome2D 2 coeffs1.

(** * Specification vocabulary *)

(** A term respects the bound [d] on both axes. *)
Definition within (d : Z) (t : term) : Prop :=
  (deg_x_of t <= d)%Z /\ (deg_y_of t <= d)%Z.

(** A polynomial object is one the constructor returned. *)
Definition constructed (P : Polynome2D) : Prop :=
  Polynome2D_init (coefficients P) (degree P) = Ok P.

(** The power with an integer exponent as a total function on rationals;
    it is what [py_pow] returns when it returns. *)
Definition qpow (x : Qc) (n : Z) : Qc :=
  if (0 <=? n)%Z then x ^ Z.to_nat n else / (x ^ Z.to_nat (- n)).

(** [x ** n] does not raise. *)
Definition pow_ok (x : Qc) (n : Z) : bool :=
  (0 <=? n)%Z || negb (bool_decide (x = 0)).

(** A result that can only fail with [ZeroDivisionError]. *)
Definition guarded (ok : bool) (v : Qc) : result Qc :=
  if ok then Ok v else Raise ZeroDivisionError.

Definition term_ok (x y : Qc) (t : term) : bool :=
  pow_ok x (deg_x_of t) && pow_ok y (deg_y_of t).

Definition term_value (x y : Qc) (t : term) : Qc :=
  coef_of t * qpow x (deg_x_of t) * qpow y (deg_y_of t).

Definition sum_of (f : term -> Qc) (l : list term) : Qc :=
  foldr (fun t acc => f t + acc) 0 l.

(** The product of two terms and the full cross product of two term lists,
    in the order the double loop of [__mul__] visits it. *)
Definition term_mul (t1 t2 : term) : term :=
  (coef_of t1 * coef_of t2,
   ((deg_x_of t1 + deg_x_of t2)%Z, (deg_y_of t1 + deg_y_of t2)%Z)).

Definition cross_product (l1 l2 : list term) : list term :=
  flat_map (fun t1 => map (term_mul t1) l2) l1.

(** Two exponent pairs are the same, as the scan tests it. *)
Definition same_degs (dx dy : Z) (t : term) : bool :=
  (deg_x_of t =? dx)%Z && (deg_y_of t =? dy)%Z.

#[global] Instance within_dec d t : Decision (within d t).
Proof. unfold within. apply _. Defined.

(** No product of a term of [P] with a term of [Q] exceeds the bound. *)
Definition no_truncation (P Q : Polynome2D) : Prop :=
  Forall (within (degree P)) (cross_product (coefficients P) (coefficients Q)).

(** [x^-1] and [x], both accepted by the constructor with bound 2. *)
Definition inverse_x : Polynome2D := mkPolynome2D 2 [(1, (-1, 0)%Z)].
Definition plain_x : Polynome2D := mkPolynome2D 2 [(1, (1, 0)%Z)].

(** The coefficient a list gives to the exponent pair [k], all entries with
    that pair added up. *)
Definition coef_at (k : Z * Z) (l : list term) : Qc :=
  sum_of coef_of (filter (fun t : term => snd t = k) l).

(** [x^2 + 1], squared under the bound 2: the [x^4] term is dropped, the two
    [x^2] products are merged into one entry. *)
Definition square_plus_one : Polynome2D :=
  mkPolynome2D 2 [(1, (2, 0)%Z); (1, (0, 0)%Z)].

(** Ascending lexicographic order on exponent pairs. *)
Definition key_le (t u : term) : Prop :=
  (deg_x_of t < deg_x_of u)%Z
  \/ (deg_x_of t = deg_x_of u /\ (deg_y_of t <= deg_y_of u)%Z).

(** What one term adds to the integral along an axis: [c] is the
    coefficient, [n] the exponent of the integration variable, [m] the
    exponent of the variable held at [v], and [lo], [hi] are the bounds. *)
Definition contribution (lo hi v c : Qc) (n m : Z) : Qc :=
  c * qpow v m * (qpow hi (n + 1) - qpow lo (n + 1)) / Qc_of_Z (n + 1).

Definition contribution_x (a b y_value : Qc) (t : term) : Qc :=
  contribution a b y_value (coef_of t) (deg_x_of t) (deg_y_of t).

Definition contribution_y (c d x_value : Qc) (t : term) : Qc :=
  contribution c d x_value (coef_of t) (deg_y_of t) (deg_x_of t).

(** The terms each integral looks at. *)
Definition nonneg_x (l : list term) : list term :=
  filter (fun t : term => (0 <= deg_x_of t)%Z) l.

Definition nonneg_y (l : list term) : list term :=
  filter (fun t : term => (0 <= deg_y_of t)%Z) l.

(** [y^-1], accepted with bound 2 like [inverse_x]. *)
Definition inverse_y : Polynome2D := mkPolynome2D 2 [(1, (0, -1)%Z)].

(** [x^2 + x * y^-2], accepted with bound 2. *)
Definition x2_plus_x_over_y2 : Polynome2D :=
  mkPolynome2D 2 [(1, (2, 0)%Z); (1, (1, -2)%Z)].

(** The exponent pairs of a term list, in order. *)
Definition degs (l : list term) : list (Z * Z) := snd <$> l.

(** No exponent pair is stored twice. *)
Definition merged (P : Polynome2D) : Prop := NoDup (degs (coefficients P)).

(** No exponent is negative. *)
Definition nonneg_exps (P : Polynome2D) : Prop :=
  Forall (fun t => (0 <= deg_x_of t)%Z /\ (0 <= deg_y_of t)%Z) (coefficients P).

(** The polynomial without terms and the constant 1, under the bound [d]. *)
Definition no_terms (d : Z) : Polynome2D := mkPolynome2D d [].
Definition constant_one (d : Z) : Polynome2D := mkPolynome2D d [(1, (0, 0)%Z)].

(** A valuation of terms that is additive in the coefficient. *)
Definition additive (f : term -> Qc) : Prop :=
  forall c1 c2 k, f (c1 + c2, k) = f (c1, k) + f (c2, k).

(** A test on terms that only looks at the exponent pair. *)
Definition on_degs (ok : term -> bool) : Prop :=
  forall c1 c2 k, ok (c1, k) = ok (c2, k).

(** What a term adds to each partial derivative, and when computing it
    raises nothing. *)
Definition grad_x_term (x y : Qc) (t : term) : Qc :=
  if (deg_x_of t >? 0)%Z
  then coef_of t * Qc_of_Z (deg_x_of t) * qpow x (deg_x_of t - 1) * qpow y (deg_y_of t)
  else 0.

Definition grad_y_term (x y : Qc) (t : term) : Qc :=
  if (deg_y_of t >? 0)%Z
  then coef_of t * Qc_of_Z (deg_y_of t) * qpow x (deg_x_of t) * qpow y (deg_y_of t - 1)
  else 0.

Definition grad_ok (x y : Qc) (t : term) : bool :=
  (negb (deg_x_of t >? 0)%Z || pow_ok y (deg_y_of t))
  && (negb (deg_y_of t >? 0)%Z || pow_ok x (deg_x_of t)).

Definition guarded_pair (ok : bool) (v : Qc * Qc) : result (Qc * Qc) :=
  if ok then Ok v else Raise ZeroDivisionError.

Definition pair_plus (u v : Qc * Qc) : Qc * Qc := (u.1 + v.1, u.2 + v.2).



(** The exponent pairs of [ks] that are not in [seen], each once, in the
    order in which they first occur in [ks]. *)
Fixpoint fresh_degs (seen ks : list (Z * Z)) : list (Z * Z) :=
  match ks with
  | [] => []
  | k :: ks' =>
      if decide (k ∈ seen) then fresh_degs seen ks'
      else k :: fresh_degs (seen ++ [k]) ks'
  end.

(** * Basic facts *)

(** The demonstration polynomial [3x^2 - 4y + 5xy] at [(1, 1)], and its
    rendering when coefficients are integers printed in decimal. *)
Example eval_poly_1_1 : eval poly 1 1 = Ok (Qc_of_Z 4).
Proof. vm_compute. f_equal. by apply Qc_is_canon. Qed.

Example gradient_poly_1_1 : gradient poly 1 1 = Ok (Qc_of_Z 11, 1).
Proof. vm_compute. do 2 f_equal; by apply Qc_is_canon. Qed.

Example repr_poly :
  repr (fun c => pretty (Qnum (this c))) poly
  = "-4 * x^0 * y^1 + 5 * x^1 * y^1 + 3 * x^2 * y^0".
Proof. reflexivity. Qed.


Lemma py_pow_guarded x n : py_pow x n = guarded (pow_ok x n) (qpow x n).
Proof.
  unfold py_pow, pow_ok, qpow, guarded.
  destruct (0 <=? n)%Z; simpl; [reflexivity|].
  destruct (decide (x = 0)) as [->|Hx].
  - rewrite bool_decide_eq_true_2 by reflexivity. reflexivity.
  - rewrite bool_decide_eq_false_2 by assumption. reflexivity.
Qed.

Lemma lift2_guarded f b1 v1 b2 v2 :
  lift2 f (guarded b1 v1) (guarded b2 v2) = guarded (b1 && b2) (f v1 v2).
Proof. destruct b1, b2; reflexivity. Qed.

Lemma for_each_ext {A S} (f g : S -> A -> result S) l s :
  (forall s' a, a ∈ l -> f s' a = g s' a) -> for_each f l s = for_each g l s.
Proof.
  revert s. induction l as [|a l IH]; intros s Hfg; simpl; [reflexivity|].
  rewrite (Hfg s a) by left.
  destruct (g s a) as [s'|e]; simpl; [|reflexivity].
  apply IH. intros s'' a' Ha'. apply Hfg. by right.
Qed.

(** A loop that adds one guarded number per element. *)
Lemma for_each_guarded_sum (ok : term -> bool) (f : term -> Qc) l s :
  for_each (fun acc t => v ← guarded (ok t) (f t); Ok (acc + v)) l s
  = guarded (forallb ok l) (s + sum_of f l).
Proof.
  revert s. induction l as [|t l IH]; intros s; simpl.
  - f_equal. ring.
  - destruct (ok t); simpl; [|reflexivity].
    rewrite IH. f_equal. ring.
Qed.

Lemma sum_of_cons f t l : sum_of f (t :: l) = f t + sum_of f l.
Proof. reflexivity. Qed.

Lemma sum_of_app f l1 l2 : sum_of f (l1 ++ l2) = sum_of f l1 + sum_of f l2.
Proof. induction l1 as [|t l1 IH]; simpl; [ring|]. rewrite IH. ring. Qed.

(** ** Validation *)

Lemma validate_within d cs :
  Forall (within d) cs -> _validate_coefficients d cs = Ok cs.
Proof.
  unfold _validate_coefficients.
  assert (H : Forall (within d) cs ->
    for_each (fun (_ : unit) '(coef, (deg_x, deg_y)) =>
      if (deg_x >? d)%Z || (deg_y >? d)%Z
      then Raise (DegreeExceeded deg_x deg_y d) else Ok tt) cs tt = Ok tt).
  { induction 1 as [|[c [dx dy]] l [Hx Hy] _ IH]; simpl; [reflexivity|].
    unfold deg_x_of, deg_y_of in *; simpl in *.
    destruct (Z.gtb_spec dx d); [lia|]. destruct (Z.gtb_spec dy d); [lia|].
    simpl. exact IH. }
  intros Hcs. rewrite (H Hcs). reflexivity.
Qed.

Lemma validate_exceeded d cs :
  ¬ Forall (within d) cs ->
  exists c dx dy, (c, (dx, dy)) ∈ cs /\ ((dx > d)%Z \/ (dy > d)%Z) /\
    _validate_coefficients d cs = Raise (DegreeExceeded dx dy d).
Proof.
  unfold _validate_coefficients.
  induction cs as [|[c [dx dy]] l IH]; intros Hn.
  - destruct Hn. constructor.
  - simpl. destruct (Z.gtb_spec dx d) as [Hx|Hx]; simpl.
    { exists c, dx, dy. split; [left|]. split; [lia|reflexivity]. }
    destruct (Z.gtb_spec dy d) as [Hy|Hy]; simpl.
    { exists c, dx, dy. split; [left|]. split; [lia|reflexivity]. }
    destruct IH as (c' & dx' & dy' & Hin & Hgt & Heq).
    { intros Hl. apply Hn. constructor; [|exact Hl].
      split; unfold deg_x_of, deg_y_of; simpl; lia. }
    exists c', dx', dy'. split; [by right|]. split; [exact Hgt|].
    match goal with
    | H : context [for_each ?f l tt] |- _ =>
        destruct (for_each f l tt) as [[]|e]; simpl in *; congruence
    end.
Qed.

Lemma init_within cs d :
  Forall (within d) cs -> Polynome2D_init cs d = Ok (mkPolynome2D d cs).
Proof.
  intros H. unfold Polynome2D_init. rewrite validate_within by exact H.
  reflexivity.
Qed.

Lemma init_Ok_inv cs d P :
  Polynome2D_init cs d = Ok P -> P = mkPolynome2D d cs /\ Forall (within d) cs.
Proof.
  intros H. destruct (decide (Forall (within d) cs)) as [Hw|Hw].
  - rewrite init_within in H by exact Hw. split; [congruence|exact Hw].
  - destruct (validate_exceeded d cs Hw) as (c & dx & dy & _ & _ & Hr).
    unfold Polynome2D_init in H. rewrite Hr in H. discriminate.
Qed.

Lemma constructed_within P : constructed P -> Forall (within (degree P)) (coefficients P).
Proof. intros H. apply init_Ok_inv in H. tauto. Qed.

(** ** The merge step *)

Lemma same_degs_true dx dy t : same_degs dx dy t = true <-> snd t = (dx, dy).
Proof.
  destruct t as [c [dx' dy']]. unfold same_degs, deg_x_of, deg_y_of. simpl.
  rewrite andb_true_iff, !Z.eqb_eq. split; [intros [-> ->]; reflexivity|].
  intros [= -> ->]. tauto.
Qed.

Lemma first_match_shift dx dy l i :
  first_match dx dy l (S i)
  = (fun '(j, t) => (S j, t)) <$> first_match dx dy l i.
Proof.
  revert i. induction l as [|[c [dx' dy']] l IH]; intros i; simpl; [reflexivity|].
  destruct ((dx' =? dx)%Z && (dy' =? dy)%Z); [reflexivity|]. apply IH.
Qed.

Lemma merge_term_nil combine fresh c dx dy :
  merge_term combine fresh [] (c, (dx, dy)) = [(fresh c, (dx, dy))].
Proof. reflexivity. Qed.

(** The scan-then-update of the source is the evident recursion on the list. *)
Lemma merge_term_cons combine fresh u l c dx dy :
  merge_term combine fresh (u :: l) (c, (dx, dy))
  = if same_degs dx dy u then (combine (coef_of u) c, snd u) :: l
    else u :: merge_term combine fresh l (c, (dx, dy)).
Proof.
  destruct u as [cu [dxu dyu]].
  unfold merge_term, same_degs, deg_x_of, deg_y_of, coef_of. simpl.
  destruct ((dxu =? dx)%Z && (dyu =? dy)%Z); [reflexivity|].
  rewrite first_match_shift.
  destruct (first_match dx dy l 0) as [[i [ci [dxi dyi]]]|]; reflexivity.
Qed.

(** Merging keeps every exponent pair already there and adds the new one
    when it is missing: the list of exponent pairs changes only by a
    possible append. *)
Lemma merge_term_degs combine fresh l c dx dy :
  snd <$> merge_term combine fresh l (c, (dx, dy))
  = if existsb (same_degs dx dy) l then snd <$> l else (snd <$> l) ++ [(dx, dy)].
Proof.
  induction l as [|u l IH]; [reflexivity|].
  rewrite merge_term_cons. cbn [existsb].
  destruct (same_degs dx dy u) eqn:E; [reflexivity|].
  rewrite fmap_cons, IH. cbn [orb].
  destruct (existsb (same_degs dx dy) l); reflexivity.
Qed.

Lemma merge_term_within combine fresh d l t :
  Forall (within d) l -> within d t ->
  Forall (within d) (merge_term combine fresh l t).
Proof.
  destruct t as [c [dx dy]]. intros Hl Ht.
  induction Hl as [|u l Hu Hl IH]; [constructor; [exact Ht|constructor]|].
  rewrite merge_term_cons. destruct (same_degs dx dy u); constructor; auto.
Qed.

Lemma foldl_merge_within combine fresh d l ts :
  Forall (within d) l -> Forall (within d) ts ->
  Forall (within d) (foldl (merge_term combine fresh) l ts).
Proof.
  intros Hl Hts. revert l Hl.
  induction Hts as [|t ts Ht _ IH]; intros l Hl; simpl; [exact Hl|].
  apply IH. by apply merge_term_within.
Qed.

(** The value of a list after a merge, for any valuation [f] of terms that
    is additive in the coefficient. *)
Lemma sum_of_merge_term (f : term -> Qc) combine fresh l c dx dy :
  (forall c', f (combine c' c, (dx, dy)) = f (c', (dx, dy)) + f (fresh c, (dx, dy))) ->
  sum_of f (merge_term combine fresh l (c, (dx, dy)))
  = sum_of f l + f (fresh c, (dx, dy)).
Proof.
  intros Hf. induction l as [|u l IH].
  - rewrite merge_term_nil. simpl. ring.
  - rewrite merge_term_cons.
    destruct (same_degs dx dy u) eqn:E; rewrite !sum_of_cons.
    + apply same_degs_true in E. destruct u as [cu du]. simpl in *. subst du.
      unfold coef_of. simpl. rewrite Hf. ring.
    + rewrite IH. ring.
Qed.

Lemma forallb_merge_term (ok : term -> bool) combine fresh l c dx dy :
  (forall c1 c2, ok (c1, (dx, dy)) = ok (c2, (dx, dy))) ->
  forallb ok (merge_term combine fresh l (c, (dx, dy)))
  = forallb ok l && ok (c, (dx, dy)).
Proof.
  intros Hok. induction l as [|u l IH].
  - rewrite merge_term_nil. simpl. rewrite andb_true_r. apply Hok.
  - rewrite merge_term_cons.
    destruct (same_degs dx dy u) eqn:E; cbn [forallb].
    + apply same_degs_true in E. destruct u as [cu du]. simpl in *. subst du.
      rewrite (Hok _ cu), (Hok c cu).
      destruct (ok (cu, (dx, dy))), (forallb ok l); reflexivity.
    + rewrite IH. rewrite andb_assoc. reflexivity.
Qed.

(** ** Evaluation as a guarded sum *)

Lemma term_value_plus x y c1 c2 d :
  term_value x y (c1 + c2, d) = term_value x y (c1, d) + term_value x y (c2, d).
Proof. unfold term_value, coef_of, deg_x_of, deg_y_of. simpl. ring. Qed.

Lemma term_ok_coef x y c1 c2 d : term_ok x y (c1, d) = term_ok x y (c2, d).
Proof. reflexivity. Qed.

Lemma eval_guarded P x y :
  eval P x y
  = guarded (forallb (term_ok x y) (coefficients P))
            (sum_of (term_value x y) (coefficients P)).
Proof.
  unfold eval.
  rewrite (for_each_ext _
    (fun acc t => v ← guarded (term_ok x y t) (term_value x y t); Ok (acc + v))).
  - rewrite for_each_guarded_sum. f_equal. ring.
  - intros acc [c [dx dy]] _. rewrite !py_pow_guarded.
    unfold term_ok, term_value, coef_of, deg_x_of, deg_y_of. simpl.
    destruct (pow_ok x dx), (pow_ok y dy); reflexivity.
Qed.

Lemma foldl_merge_plus_value x y l ts :
  sum_of (term_value x y) (foldl (merge_term Qcplus (fun c => c)) l ts)
  = sum_of (term_value x y) l + sum_of (term_value x y) ts.
Proof.
  revert l. induction ts as [|[c [dx dy]] ts IH]; intros l; [simpl; ring|].
  cbn [foldl]. rewrite IH, sum_of_merge_term, sum_of_cons; [ring|].
  intros c'. apply term_value_plus.
Qed.

Lemma foldl_merge_ok x y combine fresh l ts :
  forallb (term_ok x y) (foldl (merge_term combine fresh) l ts)
  = forallb (term_ok x y) l && forallb (term_ok x y) ts.
Proof.
  revert l. induction ts as [|[c [dx dy]] ts IH]; intros l; cbn [foldl forallb].
  - by rewrite andb_true_r.
  - rewrite IH, forallb_merge_term by (intros; apply term_ok_coef).
    by rewrite andb_assoc.
Qed.

(** The two outcomes of the constructor. *)
Lemma init_dichotomy cs d :
  (Forall (within d) cs /\ Polynome2D_init cs d = Ok (mkPolynome2D d cs))
  \/ (exists c dx dy, (c, (dx, dy)) ∈ cs /\ ((dx > d)%Z \/ (dy > d)%Z) /\
        Polynome2D_init cs d = Raise (DegreeExceeded dx dy d)).
Proof.
  destruct (decide (Forall (within d) cs)) as [H|H].
  - left. split; [exact H|by apply init_within].
  - right. destruct (validate_exceeded d cs H) as (c & dx & dy & Hin & Hgt & Hr).
    exists c, dx, dy. unfold Polynome2D_init. rewrite Hr. auto.
Qed.

Lemma init_not_mismatch cs d : Polynome2D_init cs d ≠ Raise DegreeMismatch.
Proof.
  destruct (init_dichotomy cs d) as [[_ ->]|(c & dx & dy & _ & _ & ->)];
    discriminate.
Qed.

Lemma Exists_exceeds_iff d cs :
  Exists (fun t => (deg_x_of t > d)%Z \/ (deg_y_of t > d)%Z) cs
  <-> ¬ Forall (within d) cs.
Proof.
  induction cs as [|t cs IH].
  - split; [inversion 1|intros H; destruct H; constructor].
  - rewrite Exists_cons, Forall_cons, IH. unfold within at 2. split.
    + intros [Ht|Hn] [Hw Hf]; [lia|contradiction].
    + intros Hn.
      destruct (decide (deg_x_of t > d)%Z) as [|Hx]; [left; by left|].
      destruct (decide (deg_y_of t > d)%Z) as [|Hy]; [left; by right|].
      right. intros Hf. apply Hn. split; [lia|exact Hf].
Qed.

(** * Construction (C3) *)

(** C3: construction raises [DegreeExceeded] exactly when some supplied term
    has an exponent strictly above the bound, and the error names such a
    term; in every other case (exponents equal to the bound, negative
    exponents, repeated exponent pairs, zero coefficients) it succeeds and
    the object holds the bound and the very list that was supplied. *)
Theorem init_degree_exceeded_iff (cs : list term) (d : Z) :
  ((exists dx dy, Polynome2D_init cs d = Raise (DegreeExceeded dx dy d))
     <-> Exists (fun t => (deg_x_of t > d)%Z \/ (deg_y_of t > d)%Z) cs)
  /\ (Polynome2D_init cs d = Ok (mkPolynome2D d cs)
     <-> Forall (fun t => (deg_x_of t <= d)%Z /\ (deg_y_of t <= d)%Z) cs)
  /\ (forall e, Polynome2D_init cs d = Raise e ->
        exists c dx dy, e = DegreeExceeded dx dy d /\ (c, (dx, dy)) ∈ cs
                        /\ ((dx > d)%Z \/ (dy > d)%Z))
  /\ (forall c c' n m, (n <= d)%Z -> (m <= d)%Z ->
        Polynome2D_init [(c, (d, d)); (c', (d, d)); (0, (n, m))] d
        = Ok (mkPolynome2D d [(c, (d, d)); (c', (d, d)); (0, (n, m))])).
Proof.
  pose proof (init_dichotomy cs d) as Hdich.
  pose proof (Exists_exceeds_iff d cs) as Hex.
  repeat split.
  - intros (dx & dy & Hr). apply Hex. intros Hw.
    rewrite init_within in Hr by exact Hw. discriminate.
  - intros Hx. apply Hex in Hx.
    destruct Hdich as [[Hw _]|(c & dx & dy & _ & _ & Hr)]; [contradiction|eauto].
  - intros Hr. apply init_Ok_inv in Hr. tauto.
  - apply init_within.
  - intros e He. destruct Hdich as [[_ Hw]|(c & dx & dy & Hin & Hgt & Hr)].
    + rewrite Hw in He. discriminate.
    + exists c, dx, dy. rewrite Hr in He. split; [congruence|tauto].
  - intros c c' n m Hn Hm. apply init_within.
    repeat (apply Forall_cons_2;
            [split; unfold deg_x_of, deg_y_of; simpl; lia|]).
    apply Forall_nil_2.
Qed.

(** * Degree mismatch (C7) *)

(** C7: each of [__add__], [__sub__] and [__mul__] raises the degree-mismatch
    error exactly when the two bounds differ; then there is no result, and
    with equal bounds that error is never the outcome. *)
Theorem degree_mismatch_iff (P Q : Polynome2D) :
  (add P Q = Raise DegreeMismatch <-> degree P ≠ degree Q)
  /\ (sub P Q = Raise DegreeMismatch <-> degree P ≠ degree Q)
  /\ (mul P Q = Raise DegreeMismatch <-> degree P ≠ degree Q).
Proof.
  unfold add, sub, mul.
  repeat split; destruct (decide (degree P ≠ degree Q)) as [Hd|Hd];
    try tauto; try (intros H; exfalso; exact (init_not_mismatch _ _ H)).
Qed.

(** * Addition (C1) *)

(** C1: for constructed polynomials with the same bound, [P + Q] exists and
    its evaluation at any point is the sum of the two evaluations, whatever
    repeated exponent pairs or zero coefficients the operands hold.  The
    equation is between outcomes: where an evaluation raises (zero to a
    negative power), both sides raise. *)
Theorem add_eval_additive (P Q : Polynome2D) (x y : Qc) :
  constructed P -> constructed Q -> degree P = degree Q ->
  exists R, add P Q = Ok R
    /\ degree R = degree P
    /\ eval R x y = lift2 Qcplus (eval P x y) (eval Q x y).
Proof.
  intros HP HQ Hd. apply constructed_within in HP, HQ. rewrite <- Hd in HQ.
  unfold add. destruct (decide (degree P ≠ degree Q)) as [|_]; [contradiction|].
  rewrite init_within by (by apply foldl_merge_within).
  eexists. split; [reflexivity|]. split; [reflexivity|].
  rewrite !eval_guarded, lift2_guarded. simpl.
  rewrite foldl_merge_ok, foldl_merge_plus_value. reflexivity.
Qed.

(** An instance with a repeated exponent pair, a zero coefficient and a
    negative exponent, evaluated where nothing raises. *)
Lemma add_eval_additive_witness :
  exists R,
    add (mkPolynome2D 2 [(1, (1, 0)%Z); (1 + 1, (1, 0)%Z); (0, (0, 0)%Z)])
        (mkPolynome2D 2 [(1, (1, 0)%Z); (1, (-1, 2)%Z)]) = Ok R
    /\ degree R = 2%Z
    /\ eval R 1 (1 + 1)
       = lift2 Qcplus
           (eval (mkPolynome2D 2 [(1, (1, 0)%Z); (1 + 1, (1, 0)%Z); (0, (0, 0)%Z)])
                 1 (1 + 1))
           (eval (mkPolynome2D 2 [(1, (1, 0)%Z); (1, (-1, 2)%Z)]) 1 (1 + 1)).
Proof.
  apply (add_eval_additive
           (mkPolynome2D 2 [(1, (1, 0)%Z); (1 + 1, (1, 0)%Z); (0, (0, 0)%Z)])
           (mkPolynome2D 2 [(1, (1, 0)%Z); (1, (-1, 2)%Z)]) 1 (1 + 1));
    reflexivity.
Defined.

(** * Multiplication *)

Lemma mul_step_spec d t1 acc t2 :
  mul_step d t1 acc t2
  = if decide (within d (term_mul t1 t2))
    then merge_term Qcplus (fun c => c) acc (term_mul t1 t2) else acc.
Proof.
  destruct t1 as [c1 [dx1 dy1]], t2 as [c2 [dx2 dy2]].
  unfold mul_step, term_mul, coef_of, deg_x_of, deg_y_of. cbn [fst snd].
  destruct (decide _) as [[Hx Hy]|Hn];
    unfold within, deg_x_of, deg_y_of in *; cbn [fst snd] in *.
  - apply Z.leb_le in Hx, Hy. rewrite Hx, Hy. reflexivity.
  - destruct (Z.leb_spec (dx1 + dx2) d); [|reflexivity].
    destruct (Z.leb_spec (dy1 + dy2) d); [|reflexivity].
    exfalso. apply Hn. split; assumption.
Qed.

Lemma mul_inner_spec d t1 acc l2 :
  foldl (mul_step d t1) acc l2
  = foldl (merge_term Qcplus (fun c => c)) acc
          (filter (within d) (map (term_mul t1) l2)).
Proof.
  revert acc. induction l2 as [|t2 l2 IH]; intros acc; [reflexivity|].
  cbn [foldl map]. rewrite IH, mul_step_spec, filter_cons.
  destruct (decide (within d (term_mul t1 t2))); reflexivity.
Qed.

(** The double loop of [__mul__] merges, in order, the cross-product terms
    that respect the bound, and nothing else. *)
Lemma mul_loops_spec d acc l1 l2 :
  foldl (fun new_coeffs t1 => foldl (mul_step d t1) new_coeffs l2) acc l1
  = foldl (merge_term Qcplus (fun c => c)) acc
          (filter (within d) (cross_product l1 l2)).
Proof.
  revert acc. induction l1 as [|t1 l1 IH]; intros acc; [reflexivity|].
  cbn [foldl]. rewrite IH, mul_inner_spec. unfold cross_product. simpl.
  rewrite filter_app, foldl_app. reflexivity.
Qed.

Lemma Forall_filter_within d (l : list term) : Forall (within d) (filter (within d) l).
Proof.
  induction l as [|t l IH]; [constructor|].
  rewrite filter_cons. destruct (decide (within d t)); [constructor|]; assumption.
Qed.

Lemma mul_Ok P Q :
  degree P = degree Q ->
  mul P Q = Ok (mkPolynome2D (degree P)
    (foldl (merge_term Qcplus (fun c => c)) []
       (filter (within (degree P)) (cross_product (coefficients P) (coefficients Q))))).
Proof.
  intros Hd. unfold mul.
  destruct (decide (degree P ≠ degree Q)) as [|_]; [contradiction|].
  rewrite mul_loops_spec. apply init_within.
  apply foldl_merge_within; [constructor|apply Forall_filter_within].
Qed.

(** ** Powers with integer exponents *)

Lemma Qcpower_add (x : Qc) (n m : nat) : x ^ (n + m) = x ^ n * x ^ m.
Proof. induction n as [|n IH]; simpl; [ring|]. rewrite IH. ring. Qed.

Lemma Qcpower_nonzero (x : Qc) (n : nat) : x ≠ 0 -> x ^ n ≠ 0.
Proof.
  intros Hx. induction n as [|n IH]; simpl; [discriminate|].
  intros H. apply Qcmult_integral in H. tauto.
Qed.

(** Away from zero the power is a quotient of two natural powers, for any
    way of writing the exponent as a difference. *)
Lemma qpow_quotient (x : Qc) (n : Z) (i j : nat) :
  x ≠ 0 -> n = (Z.of_nat i - Z.of_nat j)%Z -> qpow x n = x ^ i / x ^ j.
Proof.
  intros Hx Hn. unfold qpow. destruct (Z.leb_spec 0 n) as [H|H].
  - replace i with (Z.to_nat n + j)%nat by lia. rewrite Qcpower_add.
    field. by apply Qcpower_nonzero.
  - replace j with (Z.to_nat (- n) + i)%nat by lia. rewrite Qcpower_add.
    field. split; by apply Qcpower_nonzero.
Qed.

Lemma pow_ok_true x n : pow_ok x n = true <-> (x = 0 -> (0 <= n)%Z).
Proof.
  unfold pow_ok. rewrite orb_true_iff, Z.leb_le, negb_true_iff, bool_decide_eq_false.
  destruct (decide (x = 0)); destruct (decide (0 <= n)%Z); tauto.
Qed.

Lemma pow_ok_add x n m :
  pow_ok x n = true -> pow_ok x m = true -> pow_ok x (n + m) = true.
Proof. rewrite !pow_ok_true. intros Hn Hm Hx. specialize (Hn Hx). specialize (Hm Hx). lia. Qed.

Lemma qpow_add x n m :
  pow_ok x n = true -> pow_ok x m = true -> qpow x (n + m) = qpow x n * qpow x m.
Proof.
  rewrite !pow_ok_true. intros Hn Hm. destruct (decide (x = 0)) as [Hx|Hx].
  - specialize (Hn Hx). specialize (Hm Hx). unfold qpow.
    destruct (Z.leb_spec 0 n); [|lia]. destruct (Z.leb_spec 0 m); [|lia].
    destruct (Z.leb_spec 0 (n + m)); [|lia].
    rewrite Z2Nat.inj_add by assumption. apply Qcpower_add.
  - rewrite (qpow_quotient x n (Z.to_nat n) (Z.to_nat (- n))) by (auto; lia).
    rewrite (qpow_quotient x m (Z.to_nat m) (Z.to_nat (- m))) by (auto; lia).
    rewrite (qpow_quotient x (n + m) (Z.to_nat n + Z.to_nat m)
               (Z.to_nat (- n) + Z.to_nat (- m))) by (auto; lia).
    rewrite !Qcpower_add. field. split; by apply Qcpower_nonzero.
Qed.

(** ** The value of a cross product *)

Lemma term_ok_mul x y t1 t2 :
  term_ok x y t1 = true -> term_ok x y t2 = true ->
  term_ok x y (term_mul t1 t2) = true.
Proof.
  unfold term_ok, term_mul, deg_x_of, deg_y_of. cbn [fst snd].
  rewrite !andb_true_iff. intros [? ?] [? ?]. split; by apply pow_ok_add.
Qed.

Lemma term_value_mul x y t1 t2 :
  term_ok x y t1 = true -> term_ok x y t2 = true ->
  term_value x y (term_mul t1 t2) = term_value x y t1 * term_value x y t2.
Proof.
  unfold term_ok, term_value, term_mul, coef_of, deg_x_of, deg_y_of. cbn [fst snd].
  rewrite !andb_true_iff. intros [? ?] [? ?].
  rewrite !qpow_add by assumption. ring.
Qed.

Lemma cross_product_ok x y l1 l2 :
  forallb (term_ok x y) l1 = true -> forallb (term_ok x y) l2 = true ->
  forallb (term_ok x y) (cross_product l1 l2) = true.
Proof.
  rewrite !forallb_forall. intros H1 H2 t Ht.
  apply in_flat_map in Ht as (t1 & Ht1 & Ht).
  apply in_map_iff in Ht as (t2 & <- & Ht2). apply term_ok_mul; auto.
Qed.

Lemma cross_product_value x y l1 l2 :
  forallb (term_ok x y) l1 = true -> forallb (term_ok x y) l2 = true ->
  sum_of (term_value x y) (cross_product l1 l2)
  = sum_of (term_value x y) l1 * sum_of (term_value x y) l2.
Proof.
  intros H1 H2. induction l1 as [|t1 l1 IH]; [simpl; ring|].
  cbn [forallb] in H1. apply andb_true_iff in H1 as [Ht1 H1].
  unfold cross_product in *. cbn [flat_map]. rewrite sum_of_app, IH by exact H1.
  rewrite sum_of_cons.
  assert (Hrow : sum_of (term_value x y) (map (term_mul t1) l2)
                 = term_value x y t1 * sum_of (term_value x y) l2).
  { clear IH. induction l2 as [|t2 l2 IH2]; [simpl; ring|].
    cbn [forallb] in H2. apply andb_true_iff in H2 as [Ht2 H2].
    cbn [map]. rewrite !sum_of_cons, IH2, term_value_mul by assumption. ring. }
  rewrite Hrow. ring.
Qed.

Lemma guarded_Ok_inv b v p : guarded b v = Ok p -> b = true /\ v = p.
Proof. destruct b; simpl; intros H; [split; congruence|discriminate]. Qed.

Lemma filter_Forall_id d (l : list term) :
  Forall (within d) l -> filter (within d) l = l.
Proof.
  induction 1 as [|t l Ht _ IH]; [reflexivity|].
  rewrite filter_cons, IH. destruct (decide (within d t)); [reflexivity|contradiction].
Qed.

(** * Multiplicativity (C2) *)

(** C2 as stated fails: [x^-1 * x] is the constant 1, which evaluates to 1
    at the origin, while the evaluation of [x^-1] raises there, so the
    product of the two evaluations has no value. *)
Lemma mul_eval_counterexample :
  constructed inverse_x /\ constructed plain_x
  /\ degree inverse_x = degree plain_x
  /\ no_truncation inverse_x plain_x
  /\ mul inverse_x plain_x = Ok (mkPolynome2D 2 [(1 * 1, (0, 0)%Z)])
  /\ eval (mkPolynome2D 2 [(1 * 1, (0, 0)%Z)]) 0 0 = Ok 1
  /\ lift2 Qcmult (eval inverse_x 0 0) (eval plain_x 0 0) = Raise ZeroDivisionError
  /\ ¬ (exists R, mul inverse_x plain_x = Ok R
          /\ eval R 0 0 = lift2 Qcmult (eval inverse_x 0 0) (eval plain_x 0 0)).
Proof.
  assert (Hm : mul inverse_x plain_x = Ok (mkPolynome2D 2 [(1 * 1, (0, 0)%Z)]))
    by reflexivity.
  split; [reflexivity|]. split; [reflexivity|]. split; [reflexivity|].
  split; [repeat constructor; vm_compute; discriminate|].
  split; [exact Hm|]. split; [reflexivity|]. split; [reflexivity|].
  intros (R & HR & He). rewrite Hm in HR. injection HR as <-.
  vm_compute in He. discriminate.
Qed.

(** C2, amended: with equal bounds and no truncation, at every point where
    both operands evaluate, the product evaluates to the product of the two
    values. *)
Theorem mul_eval_multiplicative (P Q : Polynome2D) (x y p q : Qc) :
  degree P = degree Q -> no_truncation P Q ->
  eval P x y = Ok p -> eval Q x y = Ok q ->
  exists R, mul P Q = Ok R /\ degree R = degree P /\ eval R x y = Ok (p * q).
Proof.
  intros Hd Hnt HP HQ. rewrite mul_Ok by exact Hd.
  eexists. split; [reflexivity|]. split; [reflexivity|].
  rewrite eval_guarded in HP, HQ |- *.
  apply guarded_Ok_inv in HP as [HPok <-], HQ as [HQok <-]. cbn [coefficients].
  rewrite filter_Forall_id by exact Hnt.
  rewrite foldl_merge_ok, foldl_merge_plus_value. cbn [forallb sum_of foldr].
  rewrite cross_product_ok, cross_product_value by assumption.
  simpl. f_equal. ring.
Qed.

Lemma mul_eval_multiplicative_witness :
  exists R, mul inverse_x plain_x = Ok R /\ degree R = degree inverse_x
            /\ eval R (1 + 1) 0 = Ok (Q2Qc (1 # 2) * (1 + 1)).
Proof.
  apply (mul_eval_multiplicative inverse_x plain_x (1 + 1) 0 (Q2Qc (1 # 2)) (1 + 1)).
  - reflexivity.
  - repeat constructor; vm_compute; discriminate.
  - vm_compute. reflexivity.
  - vm_compute. reflexivity.
Defined.

(** Where the operands hold no negative exponent, evaluation never raises. *)
Lemma eval_nonneg_total (P : Polynome2D) (x y : Qc) :
  Forall (fun t => (0 <= deg_x_of t)%Z /\ (0 <= deg_y_of t)%Z) (coefficients P) ->
  eval P x y = Ok (sum_of (term_value x y) (coefficients P)).
Proof.
  intros H. rewrite eval_guarded.
  replace (forallb (term_ok x y) (coefficients P)) with true; [reflexivity|].
  symmetry. apply forallb_forall. intros t Ht.
  rewrite Forall_forall in H. apply list_elem_of_In, H in Ht as [Hx Hy].
  unfold term_ok. apply andb_true_iff. rewrite !pow_ok_true. auto.
Qed.

(** ** What a merge does to exponent pairs and coefficients *)

Lemma existsb_same_degs dx dy (l : list term) :
  existsb (same_degs dx dy) l = true <-> (dx, dy) ∈ snd <$> l.
Proof.
  induction l as [|u l IH]; cbn [existsb].
  - split; [discriminate|]. rewrite fmap_nil. inversion 1.
  - rewrite orb_true_iff, IH, same_degs_true, fmap_cons, elem_of_cons.
    split; intros [H|H]; auto.
Qed.

Lemma merge_term_keys combine fresh l c k k' :
  k' ∈ snd <$> merge_term combine fresh l (c, k) <-> k' ∈ snd <$> l \/ k' = k.
Proof.
  destruct k as [dx dy]. rewrite merge_term_degs.
  destruct (existsb (same_degs dx dy) l) eqn:E.
  - apply existsb_same_degs in E. split; [auto|]. intros [H| ->]; assumption.
  - rewrite elem_of_app, list_elem_of_singleton. reflexivity.
Qed.

Lemma merge_term_NoDup combine fresh l c k :
  NoDup (snd <$> l) -> NoDup (snd <$> merge_term combine fresh l (c, k)).
Proof.
  destruct k as [dx dy]. intros Hl. rewrite merge_term_degs.
  destruct (existsb (same_degs dx dy) l) eqn:E; [exact Hl|].
  apply NoDup_app. split; [exact Hl|]. split; [|apply NoDup_singleton].
  intros k Hk Hk'. apply list_elem_of_singleton in Hk'. subst k.
  apply existsb_same_degs in Hk. congruence.
Qed.

Lemma foldl_merge_keys combine fresh l ts k :
  k ∈ snd <$> foldl (merge_term combine fresh) l ts
  <-> k ∈ snd <$> l \/ k ∈ snd <$> ts.
Proof.
  revert l. induction ts as [|[c k'] ts IH]; intros l; cbn [foldl].
  - rewrite fmap_nil. split; [auto|]. intros [H|H]; [exact H|inversion H].
  - rewrite IH, merge_term_keys, fmap_cons, elem_of_cons. simpl. tauto.
Qed.

Lemma foldl_merge_NoDup combine fresh l ts :
  NoDup (snd <$> l) -> NoDup (snd <$> foldl (merge_term combine fresh) l ts).
Proof.
  revert l. induction ts as [|[c k] ts IH]; intros l Hl; cbn [foldl]; [exact Hl|].
  apply IH. by apply merge_term_NoDup.
Qed.

Lemma foldl_merge_plus_sum (f : term -> Qc) l ts :
  (forall c1 c2 k, f (c1 + c2, k) = f (c1, k) + f (c2, k)) ->
  sum_of f (foldl (merge_term Qcplus (fun c => c)) l ts) = sum_of f l + sum_of f ts.
Proof.
  intros Hf. revert l. induction ts as [|[c [dx dy]] ts IH]; intros l; [simpl; ring|].
  cbn [foldl]. rewrite IH, sum_of_merge_term, sum_of_cons; [ring|].
  intros c'. apply Hf.
Qed.

Lemma coef_at_sum k l :
  coef_at k l = sum_of (fun t => if decide (snd t = k) then coef_of t else 0) l.
Proof.
  unfold coef_at. induction l as [|t l IH]; [reflexivity|].
  rewrite filter_cons, sum_of_cons.
  destruct (decide (snd t = k)).
  - rewrite sum_of_cons. f_equal. exact IH.
  - rewrite Qcplus_0_l. exact IH.
Qed.

Lemma coef_at_cons k t l :
  coef_at k (t :: l) = (if decide (snd t = k) then coef_of t else 0) + coef_at k l.
Proof. rewrite !coef_at_sum. apply sum_of_cons. Qed.

Lemma coef_at_absent k (l : list term) : k ∉ snd <$> l -> coef_at k l = 0.
Proof.
  induction l as [|t l IH]; [reflexivity|].
  rewrite fmap_cons, not_elem_of_cons. intros [Hk Hl].
  rewrite coef_at_cons, IH by exact Hl.
  destruct (decide (snd t = k)); [congruence|ring].
Qed.

Lemma coef_at_NoDup c k (l : list term) :
  NoDup (snd <$> l) -> (c, k) ∈ l -> coef_at k l = c.
Proof.
  induction l as [|[c0 k0] l IH]; [inversion 2|].
  rewrite fmap_cons, NoDup_cons, elem_of_cons. intros [Hk0 Hl] Hin.
  rewrite coef_at_cons. cbn [snd] in *.
  destruct Hin as [[= <- <-]|Hin].
  - destruct (decide (k = k)); [|congruence].
    rewrite coef_at_absent by exact Hk0. unfold coef_of. simpl. ring.
  - destruct (decide (k0 = k)) as [->|_]; [|rewrite IH by assumption; ring].
    exfalso. apply Hk0. apply list_elem_of_fmap. exists (c, k). auto.
Qed.

Lemma foldl_merge_coef_at k l ts :
  coef_at k (foldl (merge_term Qcplus (fun c => c)) l ts) = coef_at k l + coef_at k ts.
Proof.
  rewrite !coef_at_sum. apply foldl_merge_plus_sum.
  intros c1 c2 k'. unfold coef_of. simpl. destruct (decide (k' = k)); ring.
Qed.

(** The scan, read off the list: the first entry with the exponent pair is
    overwritten in place with the summed coefficient; without such an entry
    the term is appended. *)
Lemma merge_term_scan (nc : list term) (c : Qc) (k : Z * Z) :
  (forall i c', nc !! i = Some (c', k) ->
     (forall j u, (j < i)%nat -> nc !! j = Some u -> snd u ≠ k) ->
     merge_term Qcplus (fun c => c) nc (c, k) = <[i := (c' + c, k)]> nc)
  /\ (k ∉ snd <$> nc -> merge_term Qcplus (fun c => c) nc (c, k) = nc ++ [(c, k)]).
Proof.
  destruct k as [dx dy]. split.
  - induction nc as [|u nc IH]; intros i c' Hi Hfirst; [discriminate|].
    rewrite merge_term_cons. destruct i as [|i]; simpl in Hi.
    + injection Hi as ->. unfold same_degs, deg_x_of, deg_y_of. simpl.
      rewrite !Z.eqb_refl. reflexivity.
    + destruct (same_degs dx dy u) eqn:E.
      * apply same_degs_true in E. destruct (Hfirst 0%nat u); [lia|reflexivity|exact E].
      * simpl. f_equal. apply IH; [exact Hi|].
        intros j v Hj Hv. apply (Hfirst (S j) v); [lia|exact Hv].
  - induction nc as [|u nc IH]; intros Hk; [reflexivity|].
    rewrite fmap_cons, not_elem_of_cons in Hk. destruct Hk as [Hu Hk].
    rewrite merge_term_cons. destruct (same_degs dx dy u) eqn:E.
    + apply same_degs_true in E. congruence.
    + simpl. f_equal. by apply IH.
Qed.

Lemma elem_of_cross_product t l1 l2 :
  t ∈ cross_product l1 l2 <-> exists t1 t2, t1 ∈ l1 /\ t2 ∈ l2 /\ t = term_mul t1 t2.
Proof.
  unfold cross_product. rewrite list_elem_of_In, in_flat_map. split.
  - intros (t1 & H1 & Ht). apply in_map_iff in Ht as (t2 & <- & H2).
    exists t1, t2. rewrite !list_elem_of_In. auto.
  - intros (t1 & t2 & H1 & H2 & ->). exists t1. rewrite <- list_elem_of_In.
    split; [exact H1|]. apply in_map, list_elem_of_In, H2.
Qed.

(** * Truncation in the product (C4) *)

(** C4: with equal bounds [__mul__] raises nothing.  Its result is obtained
    by merging, in loop order, exactly the cross-product terms whose summed
    exponents both respect the bound: an exponent pair occurs in the result
    if and only if it is the sum of a pair of operand terms and is within
    the bound (so no pair above the bound ever occurs), it occurs once, and
    its coefficient is the sum of the coefficients of the kept products with
    that pair.  Each merge overwrites the first entry with the same exponent
    pair, adding the coefficients, or appends when there is none. *)
Theorem mul_truncates (P Q : Polynome2D) :
  degree P = degree Q ->
  exists R, mul P Q = Ok R /\ degree R = degree P
    /\ coefficients R
       = foldl (merge_term Qcplus (fun c => c)) []
           (filter (within (degree P))
              (cross_product (coefficients P) (coefficients Q)))
    /\ Forall (within (degree P)) (coefficients R)
    /\ (forall ex ey, (ex, ey) ∈ snd <$> coefficients R <->
          exists t1 t2, t1 ∈ coefficients P /\ t2 ∈ coefficients Q
            /\ ex = (deg_x_of t1 + deg_x_of t2)%Z
            /\ ey = (deg_y_of t1 + deg_y_of t2)%Z
            /\ (ex <= degree P)%Z /\ (ey <= degree P)%Z)
    /\ NoDup (snd <$> coefficients R)
    /\ (forall c k, (c, k) ∈ coefficients R ->
          c = coef_at k (filter (within (degree P))
                           (cross_product (coefficients P) (coefficients Q))))
    /\ (forall (nc : list term) c k,
          (forall i c', nc !! i = Some (c', k) ->
             (forall j u, (j < i)%nat -> nc !! j = Some u -> snd u ≠ k) ->
             merge_term Qcplus (fun c => c) nc (c, k) = <[i := (c' + c, k)]> nc)
          /\ (k ∉ snd <$> nc ->
              merge_term Qcplus (fun c => c) nc (c, k) = nc ++ [(c, k)])).
Proof.
  intros Hd. rewrite mul_Ok by exact Hd. eexists. split; [reflexivity|].
  cbn [degree coefficients].
  set (kept := filter (within (degree P))
                 (cross_product (coefficients P) (coefficients Q))).
  assert (Hnd : NoDup (snd <$> foldl (merge_term Qcplus (fun c => c)) [] kept)).
  { apply foldl_merge_NoDup. rewrite fmap_nil. apply NoDup_nil_2. }
  split; [reflexivity|]. split; [reflexivity|].
  split; [apply foldl_merge_within; [constructor|apply Forall_filter_within]|].
  split; [|split; [exact Hnd|split; [|apply merge_term_scan]]].
  - intros ex ey. rewrite foldl_merge_keys, fmap_nil, list_elem_of_fmap.
    split.
    + intros [H|(t & Hk & Ht)]; [inversion H|].
      apply list_elem_of_filter in Ht as [[Hx Hy] Ht].
      apply elem_of_cross_product in Ht as (t1 & t2 & H1 & H2 & ->).
      unfold term_mul, deg_x_of, deg_y_of in *. cbn [fst snd] in *.
      injection Hk as -> ->. exists t1, t2. auto 10.
    + intros (t1 & t2 & H1 & H2 & -> & -> & Hx & Hy). right.
      exists (term_mul t1 t2). split; [reflexivity|].
      apply list_elem_of_filter. split; [split; assumption|].
      apply elem_of_cross_product. eauto.
  - intros c k Hin. rewrite <- (coef_at_NoDup c k _ Hnd Hin).
    rewrite foldl_merge_coef_at. unfold coef_at at 1. simpl. ring.
Qed.

Lemma mul_truncates_witness :
  degree square_plus_one = degree square_plus_one
  /\ exists R, mul square_plus_one square_plus_one = Ok R
       /\ coefficients R = [(1 * 1 + 1 * 1, (2, 0)%Z); (1 * 1, (0, 0)%Z)]
       /\ Forall (within 2) (coefficients R).
Proof.
  split; [reflexivity|].
  destruct (mul_truncates square_plus_one square_plus_one eq_refl)
    as (R & HR & _ & Hcs & Hw & _).
  exists R. split; [exact HR|]. split; [|exact Hw].
  rewrite Hcs. reflexivity.
Defined.

(** * Rendering (C8) *)

Lemma key_ltb_false t u :
  key_ltb (sort_key u) (sort_key t) = false -> key_le t u.
Proof.
  unfold key_ltb, key_le, sort_key. cbn [fst snd].
  rewrite orb_false_iff, andb_false_iff, !Z.ltb_ge, Z.eqb_neq. lia.
Qed.

Lemma key_ltb_true t u :
  key_ltb (sort_key u) (sort_key t) = true -> key_le u t /\ sort_key u ≠ sort_key t.
Proof.
  unfold key_ltb, key_le, sort_key. cbn [fst snd].
  rewrite orb_true_iff, andb_true_iff, !Z.ltb_lt, Z.eqb_eq.
  intros H. split; [lia|]. intros [= Hx Hy]. lia.
Qed.

Lemma key_le_trans t u v : key_le t u -> key_le u v -> key_le t v.
Proof. unfold key_le. lia. Qed.

Lemma insert_by_key_Permutation t l : insert_by_key t l ≡ₚ t :: l.
Proof.
  induction l as [|u l IH]; [reflexivity|]. simpl.
  destruct (key_ltb (sort_key u) (sort_key t)); [|reflexivity].
  rewrite IH. apply Permutation_swap.
Qed.

Lemma sorted_Permutation l : sorted l ≡ₚ l.
Proof.
  induction l as [|t l IH]; [reflexivity|].
  unfold sorted in *. cbn [foldr]. rewrite insert_by_key_Permutation, IH.
  reflexivity.
Qed.

Lemma insert_by_key_sorted t l :
  StronglySorted key_le l -> StronglySorted key_le (insert_by_key t l).
Proof.
  induction 1 as [|u l Hl IH Hu]; simpl.
  - repeat constructor.
  - destruct (key_ltb (sort_key u) (sort_key t)) eqn:E.
    + apply key_ltb_true in E as [E _]. constructor; [exact IH|].
      rewrite insert_by_key_Permutation. constructor; assumption.
    + apply key_ltb_false in E. constructor; [by constructor|].
      constructor; [exact E|].
      eapply Forall_impl; [exact Hu|]. intros v. by apply key_le_trans.
Qed.

Lemma sorted_StronglySorted l : StronglySorted key_le (sorted l).
Proof.
  induction l as [|t l IH]; [constructor|].
  unfold sorted in *. cbn [foldr]. by apply insert_by_key_sorted.
Qed.

(** The sort is stable: terms with one and the same key keep their order. *)
Lemma insert_by_key_stable k t l :
  filter (fun u : term => sort_key u = k) (insert_by_key t l)
  = filter (fun u : term => sort_key u = k) (t :: l).
Proof.
  induction l as [|u l IH]; [reflexivity|]. simpl.
  destruct (key_ltb (sort_key u) (sort_key t)) eqn:E; [|reflexivity].
  apply key_ltb_true in E as [_ E].
  rewrite (filter_cons _ u), IH, !filter_cons.
  destruct (decide (sort_key u = k)), (decide (sort_key t = k));
    congruence || reflexivity.
Qed.

Lemma sorted_stable k l :
  filter (fun u : term => sort_key u = k) (sorted l)
  = filter (fun u : term => sort_key u = k) l.
Proof.
  induction l as [|t l IH]; [reflexivity|].
  unfold sorted in *. cbn [foldr].
  rewrite insert_by_key_stable, !filter_cons, IH. reflexivity.
Qed.

Lemma Forall_filter_keep (Q P : term -> Prop) `{forall t, Decision (P t)} l :
  Forall Q l -> Forall Q (filter P l).
Proof.
  rewrite !Forall_forall. intros HQ t Ht.
  apply list_elem_of_filter in Ht as [_ Ht]. by apply HQ.
Qed.

Lemma filter_eq_nil (P : term -> Prop) `{forall t, Decision (P t)} l :
  filter P l = [] <-> Forall (fun t => ¬ P t) l.
Proof.
  induction l as [|t l IH]; [split; [constructor|reflexivity]|].
  rewrite filter_cons, Forall_cons. destruct (decide (P t)); [|tauto].
  split; [discriminate|tauto].
Qed.

Lemma StronglySorted_filter (P : term -> Prop) `{forall t, Decision (P t)} l :
  StronglySorted key_le l -> StronglySorted key_le (filter P l).
Proof.
  induction 1 as [|t l Hl IH Ht]; [constructor|].
  rewrite filter_cons. destruct (decide (P t)); [|exact IH].
  constructor; [exact IH|]. by apply Forall_filter_keep.
Qed.

(** The loop of [__repr__] collects the formats of the nonzero terms. *)
Lemma repr_loop str_coef acc l :
  foldl (fun terms t =>
           if decide (coef_of t ≠ 0) then terms ++ [format_term str_coef t]
           else terms) acc l
  = acc ++ (format_term str_coef <$> filter (fun t : term => coef_of t ≠ 0) l).
Proof.
  revert acc. induction l as [|t l IH]; intros acc; cbn [foldl].
  - by rewrite app_nil_r.
  - rewrite IH, filter_cons. destruct (decide (coef_of t ≠ 0)); [|reflexivity].
    rewrite fmap_cons, <- app_assoc. reflexivity.
Qed.

Lemma shown_term_not_0 (s r r' : string) :
  s +:+ " * x^" +:+ r ≠ "0" /\ (s +:+ " * x^" +:+ r) +:+ r' ≠ "0".
Proof.
  split; (destruct s as [|a s]; simpl; [discriminate|]);
    intros [= _ H]; destruct s; discriminate.
Qed.

(** C8: [__repr__] shows the terms with a nonzero coefficient, in ascending
    lexicographic order of their exponent pairs (terms with equal pairs in
    their stored order), each as ["<coef> * x^<ex> * y^<ey>"] with no
    treatment of signs, joined with [" + "]; when no term has a nonzero
    coefficient (an empty list included) the output is ["0"]. *)
Theorem repr_sorted_nonzero_terms (str_coef : Qc -> string) (P : Polynome2D) :
  repr str_coef P
    = match filter (fun t : term => coef_of t ≠ 0) (sorted (coefficients P)) with
      | [] => "0"
      | shown => String.concat " + " (format_term str_coef <$> shown)
      end
  /\ filter (fun t : term => coef_of t ≠ 0) (sorted (coefficients P))
       ≡ₚ filter (fun t : term => coef_of t ≠ 0) (coefficients P)
  /\ StronglySorted key_le
       (filter (fun t : term => coef_of t ≠ 0) (sorted (coefficients P)))
  /\ (forall k, filter (fun u : term => sort_key u = k) (sorted (coefficients P))
                = filter (fun u : term => sort_key u = k) (coefficients P))
  /\ (forall c ex ey,
        format_term str_coef (c, (ex, ey))
        = str_coef c +:+ " * x^" +:+ pretty ex +:+ " * y^" +:+ pretty ey)
  /\ (Forall (fun t => coef_of t = 0) (coefficients P) <-> repr str_coef P = "0").
Proof.
  assert (Hrepr : repr str_coef P
    = match filter (fun t : term => coef_of t ≠ 0) (sorted (coefficients P)) with
      | [] => "0"
      | shown => String.concat " + " (format_term str_coef <$> shown)
      end).
  { unfold repr. rewrite repr_loop. simpl.
    destruct (filter _ (sorted (coefficients P))); reflexivity. }
  split; [exact Hrepr|].
  split; [by rewrite sorted_Permutation|].
  split; [apply StronglySorted_filter, sorted_StronglySorted|].
  split; [intros k; apply sorted_stable|].
  split; [reflexivity|].
  rewrite Hrepr. split.
  - intros Hz.
    assert (Hnil : filter (fun t : term => coef_of t ≠ 0) (sorted (coefficients P)) = []).
    { apply filter_eq_nil. rewrite sorted_Permutation.
      eapply Forall_impl; [exact Hz|]. intros t Ht Hn. contradiction. }
    rewrite Hnil. reflexivity.
  - destruct (filter _ (sorted (coefficients P))) as [|[c [ex ey]] shown] eqn:E.
    + intros _. apply filter_eq_nil in E. rewrite sorted_Permutation in E.
      eapply Forall_impl; [exact E|]. intros t Ht. simpl in Ht.
      destruct (decide (coef_of t = 0)); tauto.
    + intros H. exfalso. cbn [fmap list_fmap String.concat format_term] in H.
      destruct (format_term str_coef <$> shown) in H.
      * exact (proj1 (shown_term_not_0 _ _ "") H).
      * exact (proj2 (shown_term_not_0 _ _ _) H).
Qed.

(** * Integration *)

Lemma Qc_of_Z_nonzero n : n ≠ 0%Z -> Qc_of_Z n ≠ 0.
Proof. intros Hn H. apply Hn, Z2Qc_inj. by rewrite Z2Qc_inj_0. Qed.

(** Under the guard the divisor is at least 1, so the division returns. *)
Lemma py_div_succ (q : Qc) (n : Z) :
  (0 <= n)%Z -> py_div q (Qc_of_Z (n + 1)) = Ok (q / Qc_of_Z (n + 1)).
Proof.
  intros Hn. unfold py_div.
  destruct (decide (Qc_of_Z (n + 1) = 0)) as [H|_]; [|reflexivity].
  apply Qc_of_Z_nonzero in H; [contradiction|lia].
Qed.

Lemma py_pow_succ (x : Qc) (n : Z) :
  (0 <= n)%Z -> py_pow x (n + 1) = Ok (qpow x (n + 1)).
Proof.
  intros Hn. rewrite py_pow_guarded. unfold pow_ok.
  destruct (Z.leb_spec 0 (n + 1)); [reflexivity|lia].
Qed.

(** One iteration of either integration loop, whatever [np_log] is. *)
Lemma integrer_body np_log (lo hi v integral c : Qc) (n m : Z) :
  (if (n >=? 0)%Z then
     if negb (n =? -1)%Z then
       pv ← py_pow v m;
       ph ← py_pow hi (n + 1);
       pl ← py_pow lo (n + 1);
       q ← py_div (c * pv * (ph - pl)) (Qc_of_Z (n + 1));
       Ok (integral + q)
     else
       pv ← py_pow v m;
       r ← py_div hi lo;
       ln ← np_log r;
       Ok (integral + c * pv * ln)
   else Ok integral)
  = (w ← guarded ((n <? 0)%Z || pow_ok v m)
                 (if (n <? 0)%Z then 0 else contribution lo hi v c n m);
     Ok (integral + w)).
Proof.
  rewrite Z.geb_leb. destruct (Z.leb_spec 0 n) as [Hn|Hn].
  - destruct (Z.ltb_spec n 0); [lia|].
    destruct (Z.eqb_spec n (-1)); [lia|]. cbn [negb orb].
    rewrite (py_pow_guarded v m). destruct (pow_ok v m); [|reflexivity].
    cbn [guarded mbind result_bind].
    rewrite !py_pow_succ by exact Hn. cbn [mbind result_bind].
    rewrite py_div_succ by exact Hn. reflexivity.
  - destruct (Z.ltb_spec n 0); [|lia]. simpl. f_equal. ring.
Qed.

Lemma forallb_skip_filter (skip : term -> bool) (P : term -> Prop)
    `{forall t, Decision (P t)} (ok : term -> bool) l :
  (forall t, skip t = true <-> ¬ P t) ->
  forallb (fun t => skip t || ok t) l = forallb ok (filter P l).
Proof.
  intros Hs. induction l as [|t l IH]; [reflexivity|].
  cbn [forallb]. rewrite filter_cons, IH.
  destruct (decide (P t)) as [Ht|Ht].
  - destruct (skip t) eqn:E; [apply Hs in E; contradiction|reflexivity].
  - apply Hs in Ht. rewrite Ht. reflexivity.
Qed.

Lemma sum_of_skip_filter (skip : term -> bool) (P : term -> Prop)
    `{forall t, Decision (P t)} (f : term -> Qc) l :
  (forall t, skip t = true <-> ¬ P t) ->
  sum_of (fun t => if skip t then 0 else f t) l = sum_of f (filter P l).
Proof.
  intros Hs. induction l as [|t l IH]; [reflexivity|].
  rewrite sum_of_cons, filter_cons, IH.
  destruct (decide (P t)) as [Ht|Ht].
  - destruct (skip t) eqn:E; [apply Hs in E; contradiction|reflexivity].
  - apply Hs in Ht. rewrite Ht. ring.
Qed.

Lemma ltb_0_skip n : (n <? 0)%Z = true <-> ¬ (0 <= n)%Z.
Proof. rewrite Z.ltb_lt. lia. Qed.

(** [integrer_x] adds up the contributions of the terms whose [x] exponent
    is not negative, and raises only if one of these has the held value [0]
    under a negative exponent. *)
Lemma integrer_x_guarded np_log P a b v :
  integrer_x np_log P a b v
  = guarded (forallb (fun t => pow_ok v (deg_y_of t)) (nonneg_x (coefficients P)))
            (sum_of (contribution_x a b v) (nonneg_x (coefficients P))).
Proof.
  unfold integrer_x.
  rewrite (for_each_ext _ (fun integral t =>
    w ← guarded ((deg_x_of t <? 0)%Z || pow_ok v (deg_y_of t))
                (if (deg_x_of t <? 0)%Z then 0 else contribution_x a b v t);
    Ok (integral + w))).
  - rewrite for_each_guarded_sum. unfold nonneg_x.
    rewrite (forallb_skip_filter (fun t => (deg_x_of t <? 0)%Z)
               (fun t => (0 <= deg_x_of t)%Z))
      by (intros; apply ltb_0_skip).
    rewrite (sum_of_skip_filter (fun t => (deg_x_of t <? 0)%Z)
               (fun t => (0 <= deg_x_of t)%Z))
      by (intros; apply ltb_0_skip).
    f_equal. ring.
  - intros integral [c [dx dy]] _. apply integrer_body.
Qed.

Lemma integrer_y_guarded np_log P c d v :
  integrer_y np_log P c d v
  = guarded (forallb (fun t => pow_ok v (deg_x_of t)) (nonneg_y (coefficients P)))
            (sum_of (contribution_y c d v) (nonneg_y (coefficients P))).
Proof.
  unfold integrer_y.
  rewrite (for_each_ext _ (fun integral t =>
    w ← guarded ((deg_y_of t <? 0)%Z || pow_ok v (deg_x_of t))
                (if (deg_y_of t <? 0)%Z then 0 else contribution_y c d v t);
    Ok (integral + w))).
  - rewrite for_each_guarded_sum. unfold nonneg_y.
    rewrite (forallb_skip_filter (fun t => (deg_y_of t <? 0)%Z)
               (fun t => (0 <= deg_y_of t)%Z))
      by (intros; apply ltb_0_skip).
    rewrite (sum_of_skip_filter (fun t => (deg_y_of t <? 0)%Z)
               (fun t => (0 <= deg_y_of t)%Z))
      by (intros; apply ltb_0_skip).
    f_equal. ring.
  - intros integral [c' [dx dy]] _. apply integrer_body.
Qed.

Lemma defined_on_nonneg_x v (l : list term) :
  forallb (fun t => pow_ok v (deg_y_of t)) (nonneg_x l) = true
  <-> (v = 0 -> Forall (fun t => (0 <= deg_x_of t)%Z -> (0 <= deg_y_of t)%Z) l).
Proof.
  unfold nonneg_x. rewrite forallb_forall, Forall_forall. split.
  - intros H Hv t Ht Hx. apply (proj1 (pow_ok_true v _)); [|exact Hv].
    apply H, list_elem_of_In, list_elem_of_filter. auto.
  - intros H t Ht. apply list_elem_of_In, list_elem_of_filter in Ht as [Hx Ht].
    apply pow_ok_true. intros Hv. by apply (H Hv).
Qed.

Lemma defined_on_nonneg_y v (l : list term) :
  forallb (fun t => pow_ok v (deg_x_of t)) (nonneg_y l) = true
  <-> (v = 0 -> Forall (fun t => (0 <= deg_y_of t)%Z -> (0 <= deg_x_of t)%Z) l).
Proof.
  unfold nonneg_y. rewrite forallb_forall, Forall_forall. split.
  - intros H Hv t Ht Hy. apply (proj1 (pow_ok_true v _)); [|exact Hv].
    apply H, list_elem_of_In, list_elem_of_filter. auto.
  - intros H t Ht. apply list_elem_of_In, list_elem_of_filter in Ht as [Hy Ht].
    apply pow_ok_true. intros Hv. by apply (H Hv).
Qed.

Lemma guarded_Ok_iff b q : (exists r, guarded b q = Ok r) <-> b = true.
Proof.
  destruct b; simpl; split; eauto; [intros [r H]|intros H]; discriminate.
Qed.

Lemma guarded_Raise_inv b q e : guarded b q = Raise e -> e = ZeroDivisionError.
Proof. destruct b; simpl; congruence. Qed.



(** * The integrals as sums over the terms with a non-negative exponent (C9) *)





Lemma zero_power_on_nonneg_x v (l : list term) :
  v = 0 -> Exists (fun t => (0 <= deg_x_of t)%Z /\ (deg_y_of t < 0)%Z) l ->
  forallb (fun t => pow_ok v (deg_y_of t)) (nonneg_x l) = false.
Proof.
  intros Hv Hex. apply not_true_is_false. intros Hok.
  apply defined_on_nonneg_x in Hok; [|exact Hv].
  rewrite Forall_forall in Hok. apply Exists_exists in Hex as (t & Ht & Hx & Hy).
  specialize (Hok t Ht Hx). lia.
Qed.

Lemma zero_power_on_nonneg_y v (l : list term) :
  v = 0 -> Exists (fun t => (0 <= deg_y_of t)%Z /\ (deg_x_of t < 0)%Z) l ->
  forallb (fun t => pow_ok v (deg_x_of t)) (nonneg_y l) = false.
Proof.
  intros Hv Hex. apply not_true_is_false. intros Hok.
  apply defined_on_nonneg_y in Hok; [|exact Hv].
  rewrite Forall_forall in Hok. apply Exists_exists in Hex as (t & Ht & Hy & Hx).
  specialize (Hok t Ht Hy). lia.
Qed.


(** On exact rationals the running sum is the exact sum of the
    contributions, whenever the held value is nonzero or no summed term has
    a negative exponent on the other axis. *)
Lemma integrer_exact_sums np_log P lo hi v :
  ((v ≠ 0 \/ Forall (fun t => (0 <= deg_x_of t)%Z -> (0 <= deg_y_of t)%Z)
               (coefficients P)) ->
   integrer_x np_log P lo hi v
   = Ok (sum_of (contribution_x lo hi v) (nonneg_x (coefficients P))))
  /\ ((v ≠ 0 \/ Forall (fun t => (0 <= deg_y_of t)%Z -> (0 <= deg_x_of t)%Z)
                  (coefficients P)) ->
      integrer_y np_log P lo hi v
      = Ok (sum_of (contribution_y lo hi v) (nonneg_y (coefficients P)))).
Proof.
  split.
  - intros H. rewrite integrer_x_guarded.
    rewrite (proj2 (defined_on_nonneg_x v _)); [reflexivity|].
    intros Hv. destruct H as [H|H]; [contradiction|exact H].
  - intros H. rewrite integrer_y_guarded.
    rewrite (proj2 (defined_on_nonneg_y v _)); [reflexivity|].
    intros Hv. destruct H as [H|H]; [contradiction|exact H].
Qed.

(** * Where the integrals return (C10) *)

(** C10 as stated fails: the integrals are not total.  [x^2 + x * y^-2],
    integrated in [x] over [1, 2] with [y] at its default 0, raises. *)
Lemma integrer_total_counterexample :
  constructed x2_plus_x_over_y2
  /\ (forall np_log r, integrer_x np_log x2_plus_x_over_y2 1 (1 + 1) 0 ≠ Ok r).
Proof. split; [reflexivity|]. intros np_log r. discriminate. Qed.

Lemma guarded_Raise_false b q e : guarded b q = Raise e -> b = false.
Proof. destruct b; [discriminate|reflexivity]. Qed.

Lemma zero_power_from_nonneg_x v (l : list term) :
  forallb (fun t => pow_ok v (deg_y_of t)) (nonneg_x l) = false ->
  v = 0 /\ Exists (fun t => (0 <= deg_x_of t)%Z /\ (deg_y_of t < 0)%Z) l.
Proof.
  intros Hf. destruct (decide (v = 0)) as [Hv|Hv].
  - split; [exact Hv|].
    destruct (decide (Exists (fun t => (0 <= deg_x_of t)%Z /\ (deg_y_of t < 0)%Z) l))
      as [Hex|Hex]; [exact Hex|].
    assert (forallb (fun t => pow_ok v (deg_y_of t)) (nonneg_x l) = true);
      [|congruence].
    apply defined_on_nonneg_x. intros _. apply Forall_forall. intros t Ht Hx.
    destruct (decide (0 <= deg_y_of t)%Z) as [|Hy]; [assumption|].
    exfalso. apply Hex, Exists_exists. exists t. split; [exact Ht|lia].
  - assert (forallb (fun t => pow_ok v (deg_y_of t)) (nonneg_x l) = true);
      [|congruence].
    apply defined_on_nonneg_x. intros Hv'. contradiction.
Qed.

Lemma zero_power_from_nonneg_y v (l : list term) :
  forallb (fun t => pow_ok v (deg_x_of t)) (nonneg_y l) = false ->
  v = 0 /\ Exists (fun t => (0 <= deg_y_of t)%Z /\ (deg_x_of t < 0)%Z) l.
Proof.
  intros Hf. destruct (decide (v = 0)) as [Hv|Hv].
  - split; [exact Hv|].
    destruct (decide (Exists (fun t => (0 <= deg_y_of t)%Z /\ (deg_x_of t < 0)%Z) l))
      as [Hex|Hex]; [exact Hex|].
    assert (forallb (fun t => pow_ok v (deg_x_of t)) (nonneg_y l) = true);
      [|congruence].
    apply defined_on_nonneg_y. intros _. apply Forall_forall. intros t Ht Hy.
    destruct (decide (0 <= deg_x_of t)%Z) as [|Hx]; [assumption|].
    exfalso. apply Hex, Exists_exists. exists t. split; [exact Ht|lia].
  - assert (forallb (fun t => pow_ok v (deg_x_of t)) (nonneg_y l) = true);
      [|congruence].
    apply defined_on_nonneg_y. intros Hv'. contradiction.
Qed.

(** C10, amended: the logarithm branch is never reached (the outcome does
    not depend on [np_log]) and the division is reached only under the
    guard, where the divisor [deg + 1] is at least 1 and never zero.  The
    integrals are not total: when the held value is 0 and a term with a
    non-negative exponent on the integration axis has a negative exponent
    on the other axis, the call raises instead of returning (zero to a
    negative power); a [ZeroDivisionError] can only arise in that way,
    never from the division. *)
Theorem integrer_total_unless_zero_power (P : Polynome2D) (lo hi v : Qc) :
  (forall np_log np_log',
      integrer_x np_log P lo hi v = integrer_x np_log' P lo hi v
      /\ integrer_y np_log P lo hi v = integrer_y np_log' P lo hi v)
  /\ (forall np_log,
        v = 0 ->
        Exists (fun t => (0 <= deg_x_of t)%Z /\ (deg_y_of t < 0)%Z) (coefficients P) ->
        forall r, integrer_x np_log P lo hi v ≠ Ok r)
  /\ (forall np_log,
        v = 0 ->
        Exists (fun t => (0 <= deg_y_of t)%Z /\ (deg_x_of t < 0)%Z) (coefficients P) ->
        forall r, integrer_y np_log P lo hi v ≠ Ok r)
  /\ (forall np_log,
        integrer_x np_log P lo hi v = Raise ZeroDivisionError ->
        v = 0 /\ Exists (fun t => (0 <= deg_x_of t)%Z /\ (deg_y_of t < 0)%Z)
                   (coefficients P))
  /\ (forall np_log,
        integrer_y np_log P lo hi v = Raise ZeroDivisionError ->
        v = 0 /\ Exists (fun t => (0 <= deg_y_of t)%Z /\ (deg_x_of t < 0)%Z)
                   (coefficients P))
  /\ (forall q n, (0 <= n)%Z ->
        (1 <= n + 1)%Z /\ Qc_of_Z (n + 1) ≠ 0
        /\ py_div q (Qc_of_Z (n + 1)) ≠ Raise ZeroDivisionError).
Proof.
  split; [|split; [|split; [|split; [|split]]]].
  - intros f g. rewrite !integrer_x_guarded, !integrer_y_guarded. auto.
  - intros f Hv Hex r.
    rewrite integrer_x_guarded, zero_power_on_nonneg_x by assumption. discriminate.
  - intros f Hv Hex r.
    rewrite integrer_y_guarded, zero_power_on_nonneg_y by assumption. discriminate.
  - intros f. rewrite integrer_x_guarded. intros H.
    apply guarded_Raise_false in H. by apply zero_power_from_nonneg_x.
  - intros f. rewrite integrer_y_guarded. intros H.
    apply guarded_Raise_false in H. by apply zero_power_from_nonneg_y.
  - intros q n Hn. split; [lia|]. split; [apply Qc_of_Z_nonzero; lia|].
    rewrite py_div_succ by exact Hn. discriminate.
Qed.

(** * The demonstration (C6) *)

(** C6 as stated fails in its second half: on [3x^2 - 4y + 5xy] the integral
    in [y] over [0, 1] with [x] held at 1 is 7/2, not -3/2. *)
Lemma demo_integrals_counterexample :
  Polynome2D_init coeffs1 2 = Ok poly
  /\ (forall np_log, integrer_y np_log poly 0 1 1 = Ok (Q2Qc (7 # 2)))
  /\ (forall np_log, integrer_y np_log poly 0 1 1 ≠ Ok (Q2Qc (- 3 # 2))).
Proof.
  split; [reflexivity|]. split; [reflexivity|].
  intros np_log H. vm_compute in H. discriminate.
Qed.

(** C6, amended: for [3x^2 - 4y + 5xy] built with bound 2,
    [integrer_x(1, 2, y_value=0)] returns exactly 7 and
    [integrer_y(0, 1, x_value=1)] returns exactly 7/2: the three terms add
    [3 * (1 - 0) / 1], [-4 * (1 - 0) / 2] and [5 * (1 - 0) / 2]. *)
Theorem demo_integrals (np_log : Qc -> result Qc) :
  Polynome2D_init coeffs1 2 = Ok poly
  /\ integrer_x np_log poly 1 (1 + 1) 0 = Ok (Qc_of_Z 7)
  /\ integrer_y np_log poly 0 1 1 = Ok (Q2Qc (7 # 2))
  /\ contribution_y 0 1 1 <$> coeffs1 = [Qc_of_Z 3; Qc_of_Z (-2); Q2Qc (5 # 2)].
Proof.
  split; [reflexivity|].
  split; [rewrite integrer_x_guarded; vm_compute; f_equal; by apply Qc_is_canon|].
  split; [reflexivity|].
  cbn [fmap list_fmap coeffs1]. repeat f_equal; by apply Qc_is_canon.
Qed.

(** * The inverse-power branch (C5) *)

(** C5: the source means to integrate a term with exponent -1 on the
    integration axis to [coef * held^other * log(hi/lo)], but tests for it
    under the guard [deg >= 0]: such a term is skipped, whatever the bounds
    and whatever [np_log] is.  For [x^-1] over [1, 2] the integral in [x]
    is 0 where the claim gives [log 2]; likewise for [y^-1] in [y]. *)
Theorem integrer_skips_inverse_power (np_log : Qc -> result Qc) :
  (forall d c m cs lo hi v,
      integrer_x np_log (mkPolynome2D d ((c, (-1, m)%Z) :: cs)) lo hi v
      = integrer_x np_log (mkPolynome2D d cs) lo hi v)
  /\ (forall d c n cs lo hi v,
      integrer_y np_log (mkPolynome2D d ((c, (n, -1)%Z) :: cs)) lo hi v
      = integrer_y np_log (mkPolynome2D d cs) lo hi v)
  /\ Polynome2D_init [(1, (-1, 0)%Z)] 2 = Ok inverse_x
  /\ integrer_x np_log inverse_x 1 (1 + 1) 0 = Ok 0
  /\ Polynome2D_init [(1, (0, -1)%Z)] 2 = Ok inverse_y
  /\ integrer_y np_log inverse_y 1 (1 + 1) 0 = Ok 0.
Proof.
  repeat split; reflexivity.
Qed.

(** * Further properties of the operators *)

(** ** The coefficient lists the operators build *)

Lemma add_Ok P Q :
  constructed P -> constructed Q -> degree P = degree Q ->
  add P Q = Ok (mkPolynome2D (degree P)
    (foldl (merge_term Qcplus (fun c => c)) (coefficients P) (coefficients Q))).
Proof.
  intros HP HQ Hd. apply constructed_within in HP, HQ. rewrite <- Hd in HQ.
  unfold add. destruct (decide (degree P ≠ degree Q)) as [|_]; [contradiction|].
  apply init_within. by apply foldl_merge_within.
Qed.

Lemma sub_Ok P Q :
  constructed P -> constructed Q -> degree P = degree Q ->
  sub P Q = Ok (mkPolynome2D (degree P)
    (foldl (merge_term Qcminus Qcopp) (coefficients P) (coefficients Q))).
Proof.
  intros HP HQ Hd. apply constructed_within in HP, HQ. rewrite <- Hd in HQ.
  unfold sub. destruct (decide (degree P ≠ degree Q)) as [|_]; [contradiction|].
  apply init_within. by apply foldl_merge_within.
Qed.

Lemma within_constructed d cs :
  Forall (within d) cs -> constructed (mkPolynome2D d cs).
Proof. intros H. unfold constructed. simpl. by apply init_within. Qed.

(** ** Valuations that are additive in the coefficient *)

Lemma additive_0 f k : additive f -> f (0, k) = 0.
Proof.
  intros Hf. pose proof (Hf 0 0 k) as H. rewrite Qcplus_0_l in H.
  set (a := f (0, k)) in *.
  transitivity ((a + a) - a); [ring|]. rewrite <- H. ring.
Qed.

Lemma additive_opp f c k : additive f -> f (- c, k) = - f (c, k).
Proof.
  intros Hf. pose proof (Hf c (- c) k) as H.
  rewrite Qcplus_opp_r, additive_0 in H by exact Hf.
  set (a := f (c, k)) in *. set (b := f (- c, k)) in *.
  transitivity ((a + b) - a); [ring|]. rewrite <- H. ring.
Qed.

Lemma foldl_merge_minus_sum f l ts :
  additive f ->
  sum_of f (foldl (merge_term Qcminus Qcopp) l ts) = sum_of f l - sum_of f ts.
Proof.
  intros Hf. revert l. induction ts as [|[c [dx dy]] ts IH]; intros l; [simpl; ring|].
  cbn [foldl]. rewrite IH, sum_of_merge_term, sum_of_cons.
  - rewrite additive_opp by exact Hf. ring.
  - intros c'. apply Hf.
Qed.

Lemma foldl_merge_forallb ok combine fresh l ts :
  on_degs ok ->
  forallb ok (foldl (merge_term combine fresh) l ts) = forallb ok l && forallb ok ts.
Proof.
  intros Hok. revert l.
  induction ts as [|[c [dx dy]] ts IH]; intros l; cbn [foldl forallb].
  - by rewrite andb_true_r.
  - rewrite IH, forallb_merge_term by (intros; apply Hok).
    by rewrite andb_assoc.
Qed.

Lemma term_value_additive x y : additive (term_value x y).
Proof. intros c1 c2 k. apply term_value_plus. Qed.

Lemma term_ok_on_degs x y : on_degs (term_ok x y).
Proof. intros c1 c2 k. reflexivity. Qed.

(** ** The constructor reports the first offending term *)

Lemma init_cons t l d :
  Polynome2D_init (t :: l) d
  = if decide (within d t)
    then match Polynome2D_init l d with
         | Ok _ => Ok (mkPolynome2D d (t :: l))
         | Raise e => Raise e
         end
    else Raise (DegreeExceeded (deg_x_of t) (deg_y_of t) d).
Proof.
  destruct t as [c [dx dy]].
  unfold Polynome2D_init, _validate_coefficients, within, deg_x_of, deg_y_of.
  cbn [for_each fst snd].
  destruct (decide _) as [[Hx Hy]|Hn].
  - destruct (Z.gtb_spec dx d); [lia|]. destruct (Z.gtb_spec dy d); [lia|].
    cbn [orb mbind result_bind].
    match goal with |- context [for_each ?f l tt] =>
      destruct (for_each f l tt) as [[]|e]; reflexivity end.
  - destruct (Z.gtb_spec dx d); [reflexivity|].
    destruct (Z.gtb_spec dy d); [reflexivity|]. exfalso. apply Hn. lia.
Qed.

(** X1: the constructor's error carries the exponent pair of the first term,
    in list order, that exceeds the bound: every term before it is within
    the bound. *)
Theorem init_names_first_offender (cs : list term) (d dx dy : Z) :
  Polynome2D_init cs d = Raise (DegreeExceeded dx dy d)
  <-> exists l1 c l2, cs = l1 ++ (c, (dx, dy)) :: l2
        /\ Forall (within d) l1 /\ ((dx > d)%Z \/ (dy > d)%Z).
Proof.
  split.
  - induction cs as [|t cs IH]; [discriminate|].
    rewrite init_cons. destruct (decide (within d t)) as [Ht|Ht].
    + destruct (Polynome2D_init cs d) as [R|e] eqn:E; [discriminate|].
      intros [= ->]. destruct (IH eq_refl) as (l1 & c & l2 & -> & Hl1 & Hgt).
      exists (t :: l1), c, l2. split; [reflexivity|]. split; [by constructor|exact Hgt].
    + intros [= <- <-]. exists [], (coef_of t), cs.
      destruct t as [c [tx ty]]. split; [reflexivity|]. split; [constructor|].
      unfold within, deg_x_of, deg_y_of in *. simpl in *. lia.
  - intros (l1 & c & l2 & -> & Hl1 & Hgt).
    induction Hl1 as [|t l1 Ht _ IH]; simpl.
    + rewrite init_cons. destruct (decide _) as [[Hx Hy]|_]; [|reflexivity].
      unfold deg_x_of, deg_y_of in *. simpl in *. lia.
    + rewrite init_cons. destruct (decide (within d t)); [|contradiction].
      rewrite IH. reflexivity.
Qed.

(** ** The operators return objects that satisfy the bound *)

(** X2: on constructed operands with the same bound the three operators
    return, and what they return is again a constructed object with that
    bound, so the operators can be chained. *)
Theorem operators_closed (P Q : Polynome2D) :
  constructed P -> constructed Q -> degree P = degree Q ->
  exists R S T,
    add P Q = Ok R /\ sub P Q = Ok S /\ mul P Q = Ok T
    /\ constructed R /\ constructed S /\ constructed T
    /\ degree R = degree P /\ degree S = degree P /\ degree T = degree P.
Proof.
  intros HP HQ Hd.
  rewrite add_Ok, sub_Ok, mul_Ok by assumption.
  apply constructed_within in HP, HQ. rewrite <- Hd in HQ.
  do 3 eexists. repeat (split; [reflexivity|]).
  repeat split; apply within_constructed.
  - by apply foldl_merge_within.
  - by apply foldl_merge_within.
  - apply foldl_merge_within; [constructor|apply Forall_filter_within].
Qed.

Lemma operators_closed_witness :
  exists R S T,
    add poly inverse_x = Ok R /\ sub poly inverse_x = Ok S /\ mul poly inverse_x = Ok T
    /\ constructed R /\ constructed S /\ constructed T
    /\ degree R = degree poly /\ degree S = degree poly /\ degree T = degree poly.
Proof. apply (operators_closed poly inverse_x); reflexivity. Defined.

(** ** Subtraction *)

(** X3: for constructed operands with the same bound, [P - Q] evaluates to
    the difference of the two evaluations, as outcomes: it raises exactly
    where one of the operands does. *)
Theorem sub_eval_difference (P Q : Polynome2D) (x y : Qc) :
  constructed P -> constructed Q -> degree P = degree Q ->
  exists S, sub P Q = Ok S
    /\ eval S x y = lift2 Qcminus (eval P x y) (eval Q x y).
Proof.
  intros HP HQ Hd. rewrite sub_Ok by assumption.
  eexists. split; [reflexivity|].
  rewrite !eval_guarded, lift2_guarded. cbn [coefficients].
  rewrite foldl_merge_forallb by apply term_ok_on_degs.
  rewrite foldl_merge_minus_sum by apply term_value_additive. reflexivity.
Qed.

Lemma sub_eval_difference_witness :
  exists S, sub poly plain_x = Ok S
    /\ eval S 1 (1 + 1) = lift2 Qcminus (eval poly 1 (1 + 1)) (eval plain_x 1 (1 + 1)).
Proof. apply (sub_eval_difference poly plain_x 1 (1 + 1)); reflexivity. Defined.

(** ** Coefficients of sums and differences *)

Lemma coef_selector_additive k :
  additive (fun t => if decide (snd t = k) then coef_of t else 0).
Proof.
  intros c1 c2 k'. unfold coef_of. simpl. destruct (decide (k' = k)); ring.
Qed.

Lemma foldl_merge_minus_coef_at k l ts :
  coef_at k (foldl (merge_term Qcminus Qcopp) l ts) = coef_at k l - coef_at k ts.
Proof.
  rewrite !coef_at_sum. apply foldl_merge_minus_sum, coef_selector_additive.
Qed.

(** X4: addition and subtraction act exponent pair by exponent pair: the
    coefficient the result gives to a pair (all its entries with that pair
    added up) is the sum, respectively the difference, of the operands'. *)
Theorem add_sub_coefficientwise (P Q : Polynome2D) :
  constructed P -> constructed Q -> degree P = degree Q ->
  exists R S, add P Q = Ok R /\ sub P Q = Ok S
    /\ forall k,
         coef_at k (coefficients R)
           = coef_at k (coefficients P) + coef_at k (coefficients Q)
         /\ coef_at k (coefficients S)
           = coef_at k (coefficients P) - coef_at k (coefficients Q).
Proof.
  intros HP HQ Hd. rewrite add_Ok, sub_Ok by assumption.
  do 2 eexists. split; [reflexivity|]. split; [reflexivity|].
  intros k. cbn [coefficients].
  rewrite foldl_merge_coef_at, foldl_merge_minus_coef_at. auto.
Qed.

Lemma add_sub_coefficientwise_witness :
  exists R S, add poly poly = Ok R /\ sub poly poly = Ok S
    /\ forall k,
         coef_at k (coefficients R)
           = coef_at k (coefficients poly) + coef_at k (coefficients poly)
         /\ coef_at k (coefficients S)
           = coef_at k (coefficients poly) - coef_at k (coefficients poly).
Proof. apply (add_sub_coefficientwise poly poly); reflexivity. Defined.

Lemma foldl_merge_degs_present combine fresh l ts :
  (forall k, k ∈ degs ts -> k ∈ degs l) ->
  degs (foldl (merge_term combine fresh) l ts) = degs l.
Proof.
  unfold degs. revert l. induction ts as [|[c [dx dy]] ts IH]; intros l Hin.
  - reflexivity.
  - cbn [foldl].
    assert (Hl : snd <$> merge_term combine fresh l (c, (dx, dy)) = snd <$> l).
    { rewrite merge_term_degs.
      destruct (existsb (same_degs dx dy) l) eqn:E; [reflexivity|].
      assert (existsb (same_degs dx dy) l = true); [|congruence].
      apply existsb_same_degs, Hin. rewrite fmap_cons. left. }
    rewrite IH; [exact Hl|].
    intros k Hk. rewrite Hl. apply Hin. rewrite fmap_cons. by right.
Qed.

(** X5: subtracting [Q] from [P + Q] gives back [P], coefficient by
    coefficient and in value wherever [Q] evaluates; the terms [Q] brought
    in stay in the list (with a zero coefficient), so the list of exponent
    pairs is that of [P + Q]. *)
Theorem add_then_sub_restores (P Q : Polynome2D) (x y q : Qc) :
  constructed P -> constructed Q -> degree P = degree Q ->
  eval Q x y = Ok q ->
  exists R S, add P Q = Ok R /\ sub R Q = Ok S
    /\ (forall k, coef_at k (coefficients S) = coef_at k (coefficients P))
    /\ eval S x y = eval P x y
    /\ degs (coefficients S) = degs (coefficients R).
Proof.
  intros HP HQ Hd Hq.
  assert (HR := add_Ok P Q HP HQ Hd).
  set (R := mkPolynome2D (degree P)
              (foldl (merge_term Qcplus (fun c => c)) (coefficients P) (coefficients Q)))
    in *.
  assert (HcR : constructed R).
  { apply constructed_within in HP, HQ. rewrite <- Hd in HQ.
    apply within_constructed. by apply foldl_merge_within. }
  exists R. rewrite (sub_Ok R Q HcR HQ Hd). eexists.
  split; [exact HR|]. split; [reflexivity|]. cbn [coefficients R].
  split; [|split].
  - intros k. rewrite foldl_merge_minus_coef_at, foldl_merge_coef_at. ring.
  - rewrite !eval_guarded in *. cbn [coefficients].
    apply guarded_Ok_inv in Hq as [Hok _].
    rewrite !foldl_merge_forallb by apply term_ok_on_degs.
    rewrite foldl_merge_minus_sum, foldl_merge_plus_sum by apply term_value_additive.
    rewrite Hok, !andb_true_r. f_equal. ring.
  - apply foldl_merge_degs_present. intros k Hk.
    apply foldl_merge_keys. by right.
Qed.

Lemma add_then_sub_restores_witness :
  exists R S, add poly plain_x = Ok R /\ sub R plain_x = Ok S
    /\ (forall k, coef_at k (coefficients S) = coef_at k (coefficients poly))
    /\ eval S 0 0 = eval poly 0 0
    /\ degs (coefficients S) = degs (coefficients R).
Proof.
  apply (add_then_sub_restores poly plain_x 0 0 0); reflexivity.
Defined.

(** ** The shape of the lists the operators build *)

Lemma merge_term_absent combine fresh l c k :
  k ∉ degs l -> merge_term combine fresh l (c, k) = l ++ [(fresh c, k)].
Proof.
  destruct k as [dx dy]. unfold degs. induction l as [|u l IH]; intros Hk.
  - reflexivity.
  - rewrite fmap_cons, not_elem_of_cons in Hk. destruct Hk as [Hu Hk].
    rewrite merge_term_cons. destruct (same_degs dx dy u) eqn:E.
    + apply same_degs_true in E. congruence.
    + simpl. f_equal. by apply IH.
Qed.

Lemma merge_term_app_absent combine fresh pre l c k :
  k ∉ degs pre ->
  merge_term combine fresh (pre ++ l) (c, k) = pre ++ merge_term combine fresh l (c, k).
Proof.
  destruct k as [dx dy]. unfold degs. induction pre as [|u pre IH]; intros Hk.
  - reflexivity.
  - rewrite fmap_cons, not_elem_of_cons in Hk. destruct Hk as [Hu Hk].
    rewrite <- app_comm_cons, merge_term_cons.
    destruct (same_degs dx dy u) eqn:E.
    + apply same_degs_true in E. congruence.
    + rewrite IH by exact Hk. reflexivity.
Qed.

Lemma degs_cons t l : degs (t :: l) = snd t :: degs l.
Proof. reflexivity. Qed.

Lemma degs_app l1 l2 : degs (l1 ++ l2) = degs l1 ++ degs l2.
Proof. unfold degs. apply fmap_app. Qed.

Lemma merge_term_degs_cases combine fresh l c k :
  (k ∈ degs l /\ degs (merge_term combine fresh l (c, k)) = degs l)
  \/ ((k ∉ degs l) /\ degs (merge_term combine fresh l (c, k)) = degs l ++ [k]).
Proof.
  destruct k as [dx dy]. unfold degs. rewrite merge_term_degs.
  destruct (existsb (same_degs dx dy) l) eqn:E.
  - left. split; [by apply existsb_same_degs|reflexivity].
  - right. split; [|reflexivity]. intros H. apply existsb_same_degs in H. congruence.
Qed.

(** Merging a list of terms appends, in order of first occurrence, the
    exponent pairs that were missing, and touches no other position. *)
Lemma foldl_merge_degs_extends combine fresh l ts :
  exists extra,
    degs (foldl (merge_term combine fresh) l ts) = degs l ++ extra
    /\ NoDup extra
    /\ forall k, k ∈ extra <-> k ∈ degs ts /\ k ∉ degs l.
Proof.
  revert l. induction ts as [|[c k] ts IH]; intros l; cbn [foldl].
  - exists []. rewrite app_nil_r. split; [reflexivity|]. split; [constructor|].
    intros k. unfold degs. rewrite fmap_nil. split; [inversion 1|intros [H _]; inversion H].
  - destruct (IH (merge_term combine fresh l (c, k))) as (extra & Hd & Hnd & Hin).
    destruct (merge_term_degs_cases combine fresh l c k) as [[Hk Hl]|[Hk Hl]];
      rewrite Hl in Hd; setoid_rewrite Hl in Hin.
    + exists extra. split; [exact Hd|]. split; [exact Hnd|].
      intros k'. rewrite Hin, degs_cons, elem_of_cons.
      cbn [snd]. split; [tauto|]. intros [[->|H] Hn]; [contradiction|tauto].
    + exists (k :: extra). rewrite <- app_assoc in Hd. split; [exact Hd|].
      split.
      * constructor; [|exact Hnd]. intros H. apply Hin in H as [_ H].
        apply H. apply elem_of_app. right. left.
      * intros k'. rewrite elem_of_cons, Hin, degs_cons.
        rewrite !elem_of_cons, elem_of_app, list_elem_of_singleton.
        cbn [snd]. split.
        -- intros [->|[H Hn]]; [tauto|]. tauto.
        -- intros [[->|H] Hn]; [tauto|].
           destruct (decide (k' = k)); [tauto|]. right. tauto.
Qed.

Lemma foldl_merge_degs_indep c1 f1 c2 f2 l1 l2 ts :
  degs l1 = degs l2 ->
  degs (foldl (merge_term c1 f1) l1 ts) = degs (foldl (merge_term c2 f2) l2 ts).
Proof.
  revert l1 l2. induction ts as [|[c k] ts IH]; intros l1 l2 Hl; [exact Hl|].
  cbn [foldl]. apply IH.
  destruct (merge_term_degs_cases c1 f1 l1 c k) as [[Hk1 ->]|[Hk1 ->]],
           (merge_term_degs_cases c2 f2 l2 c k) as [[Hk2 ->]|[Hk2 ->]];
    rewrite Hl in *; try contradiction; reflexivity.
Qed.

(** The exponent pairs after merging a list of terms, computed. *)
Lemma foldl_merge_degs_fresh combine fresh l ts :
  degs (foldl (merge_term combine fresh) l ts)
  = degs l ++ fresh_degs (degs l) (degs ts).
Proof.
  revert l. induction ts as [|[c k] ts IH]; intros l; cbn [foldl].
  - unfold degs at 3. cbn [fmap list_fmap fresh_degs]. by rewrite app_nil_r.
  - rewrite IH, degs_cons. cbn [snd fresh_degs].
    destruct (merge_term_degs_cases combine fresh l c k) as [[Hk ->]|[Hk ->]].
    + destruct (decide (k ∈ degs l)); [reflexivity|contradiction].
    + destruct (decide (k ∈ degs l)); [contradiction|].
      rewrite <- app_assoc. reflexivity.
Qed.

Lemma fresh_degs_spec seen ks :
  NoDup (fresh_degs seen ks)
  /\ forall k, k ∈ fresh_degs seen ks <-> (k ∈ ks /\ k ∉ seen).
Proof.
  revert seen. induction ks as [|k0 ks IH]; intros seen; cbn [fresh_degs].
  - split; [constructor|]. intros k. split; [inversion 1|intros [H _]; inversion H].
  - destruct (decide (k0 ∈ seen)) as [Hin|Hin].
    + destruct (IH seen) as [Hnd Hmem]. split; [exact Hnd|].
      intros k. rewrite Hmem, elem_of_cons. split; [tauto|].
      intros [[->|H] Hn]; [contradiction|tauto].
    + destruct (IH (seen ++ [k0])) as [Hnd Hmem]. split.
      * constructor; [|exact Hnd]. intros H. apply Hmem in H as [_ H].
        apply H, elem_of_app. right. left.
      * intros k. rewrite !elem_of_cons, Hmem, elem_of_app, list_elem_of_singleton.
        split.
        -- intros [->|[H Hn]]; tauto.
        -- intros [[->|H] Hn]; [tauto|].
           destruct (decide (k = k0)); [tauto|]. right. tauto.
Qed.

(** X6: [P + Q] and [P - Q] keep the terms of [P] at their positions and
    append, in order of first occurrence in [Q] and once each, the exponent
    pairs of [Q] that [P] lacks: the list of exponent pairs of the result is
    that of [P] followed by [fresh_degs] of [Q].  No entry is removed or
    moved.  If [P] holds no exponent pair twice, neither do the results. *)
Theorem add_sub_extend_self (P Q : Polynome2D) :
  constructed P -> constructed Q -> degree P = degree Q ->
  exists R S,
    add P Q = Ok R /\ sub P Q = Ok S
    /\ degs (coefficients R)
       = degs (coefficients P)
         ++ fresh_degs (degs (coefficients P)) (degs (coefficients Q))
    /\ degs (coefficients S)
       = degs (coefficients P)
         ++ fresh_degs (degs (coefficients P)) (degs (coefficients Q))
    /\ NoDup (fresh_degs (degs (coefficients P)) (degs (coefficients Q)))
    /\ (forall k, k ∈ fresh_degs (degs (coefficients P)) (degs (coefficients Q)) <->
          (k ∈ degs (coefficients Q) /\ k ∉ degs (coefficients P)))
    /\ (merged P -> merged R /\ merged S).
Proof.
  intros HP HQ Hd. rewrite add_Ok, sub_Ok by assumption.
  destruct (fresh_degs_spec (degs (coefficients P)) (degs (coefficients Q)))
    as [Hnd Hin].
  do 2 eexists. split; [reflexivity|]. split; [reflexivity|].
  cbn [coefficients]. rewrite !foldl_merge_degs_fresh.
  split; [reflexivity|]. split; [reflexivity|].
  split; [exact Hnd|]. split; [exact Hin|].
  intros Hm. unfold merged in *. cbn [coefficients].
  rewrite !foldl_merge_degs_fresh.
  assert (NoDup (degs (coefficients P)
                 ++ fresh_degs (degs (coefficients P)) (degs (coefficients Q))));
    [|tauto].
  apply NoDup_app. split; [exact Hm|]. split; [|exact Hnd].
  intros k Hk Hk'. apply Hin in Hk'. tauto.
Qed.

Lemma add_sub_extend_self_witness :
  exists R S,
    add poly (mkPolynome2D 2 [(1, (2, 2)%Z); (1, (2, 0)%Z); (1, (1, 0)%Z); (1, (2, 2)%Z)])
      = Ok R
    /\ sub poly (mkPolynome2D 2 [(1, (2, 2)%Z); (1, (2, 0)%Z); (1, (1, 0)%Z); (1, (2, 2)%Z)])
      = Ok S
    /\ degs (coefficients R) = [(2, 0); (0, 1); (1, 1); (2, 2); (1, 0)]%Z
    /\ degs (coefficients S) = [(2, 0); (0, 1); (1, 1); (2, 2); (1, 0)]%Z.
Proof.
  destruct (add_sub_extend_self poly
              (mkPolynome2D 2 [(1, (2, 2)%Z); (1, (2, 0)%Z); (1, (1, 0)%Z); (1, (2, 2)%Z)]))
    as (R & S & HR & HS & HdR & HdS & _); try reflexivity.
  exists R, S. split; [exact HR|]. split; [exact HS|].
  rewrite HdR, HdS. vm_compute. split; reflexivity.
Defined.

(** ** Neutral and absorbing operands *)

Lemma foldl_merge_fresh combine fresh l ts :
  NoDup (degs l ++ degs ts) ->
  foldl (merge_term combine fresh) l ts
  = l ++ ((fun t => (fresh (coef_of t), snd t)) <$> ts).
Proof.
  revert l. induction ts as [|[c k] ts IH]; intros l Hnd; cbn [foldl].
  - by rewrite fmap_nil, app_nil_r.
  - rewrite degs_cons in Hnd. cbn [snd] in Hnd.
    rewrite merge_term_absent.
    + rewrite IH.
      * rewrite <- app_assoc. reflexivity.
      * rewrite degs_app, <- app_assoc. exact Hnd.
    + apply NoDup_app in Hnd as (_ & Hdis & _). intros Hk.
      apply (Hdis k Hk). left.
Qed.

Lemma fmap_term_id (l : list term) : (fun t => (coef_of t, snd t)) <$> l = l.
Proof.
  induction l as [|[c k] l IH]; [reflexivity|]. rewrite fmap_cons, IH. reflexivity.
Qed.

Lemma constructed_eta P : mkPolynome2D (degree P) (coefficients P) = P.
Proof. by destruct P. Qed.

Lemma no_terms_constructed d : constructed (no_terms d).
Proof. apply within_constructed. constructor. Qed.

(** X7: the polynomial without terms is neutral on the right of [+] and
    [-]: the operand comes back as it is.  On the left it is neutral for [+]
    when the other operand holds no exponent pair twice, and [0 - P] is then
    [P] with every coefficient negated, in the same order. *)
Theorem no_terms_neutral (P : Polynome2D) :
  constructed P ->
  add P (no_terms (degree P)) = Ok P
  /\ sub P (no_terms (degree P)) = Ok P
  /\ (merged P ->
      add (no_terms (degree P)) P = Ok P
      /\ sub (no_terms (degree P)) P
         = Ok (mkPolynome2D (degree P)
                 ((fun t => (- coef_of t, snd t)) <$> coefficients P))).
Proof.
  intros HP. pose proof (no_terms_constructed (degree P)) as H0.
  rewrite (add_Ok P _ HP H0 eq_refl), (sub_Ok P _ HP H0 eq_refl).
  cbn [no_terms coefficients foldl]. rewrite constructed_eta.
  split; [reflexivity|]. split; [reflexivity|]. intros Hm.
  rewrite (add_Ok _ P H0 HP eq_refl), (sub_Ok _ P H0 HP eq_refl).
  cbn [no_terms coefficients degree].
  rewrite !foldl_merge_fresh by exact Hm. cbn [app].
  rewrite fmap_term_id, constructed_eta. auto.
Qed.

Lemma no_terms_neutral_witness :
  add poly (no_terms (degree poly)) = Ok poly
  /\ sub poly (no_terms (degree poly)) = Ok poly
  /\ (merged poly ->
      add (no_terms (degree poly)) poly = Ok poly
      /\ sub (no_terms (degree poly)) poly
         = Ok (mkPolynome2D (degree poly)
                 ((fun t => (- coef_of t, snd t)) <$> coefficients poly))).
Proof. apply (no_terms_neutral poly). reflexivity. Defined.

Lemma cross_product_nil_r l : cross_product l [] = [].
Proof. induction l as [|t l IH]; [reflexivity|]. exact IH. Qed.

Lemma term_mul_one_r t : term_mul t (1, (0, 0)%Z) = t.
Proof.
  destruct t as [c [dx dy]]. unfold term_mul, coef_of, deg_x_of, deg_y_of.
  cbn [fst snd]. rewrite Qcmult_1_r, !Z.add_0_r. reflexivity.
Qed.

Lemma term_mul_one_l t : term_mul (1, (0, 0)%Z) t = t.
Proof.
  destruct t as [c [dx dy]]. unfold term_mul, coef_of, deg_x_of, deg_y_of.
  cbn [fst snd]. rewrite Qcmult_1_l, !Z.add_0_l. reflexivity.
Qed.

Lemma cross_product_cons t l1 l2 :
  cross_product (t :: l1) l2 = map (term_mul t) l2 ++ cross_product l1 l2.
Proof. reflexivity. Qed.

Lemma cross_product_one_r l : cross_product l [(1, (0, 0)%Z)] = l.
Proof.
  induction l as [|t l IH]; [reflexivity|].
  rewrite cross_product_cons, IH. cbn [map app]. rewrite term_mul_one_r.
  reflexivity.
Qed.

Lemma cross_product_one_l l : cross_product [(1, (0, 0)%Z)] l = l.
Proof.
  rewrite cross_product_cons. change (cross_product [] l) with (@nil term).
  rewrite app_nil_r.
  induction l as [|t l IH]; [reflexivity|]. cbn [map].
  rewrite IH, term_mul_one_l. reflexivity.
Qed.

(** X8: the polynomial without terms absorbs in [*], on either side.  The
    constant 1 is neutral in [*], on either side, for a constructed operand
    that holds no exponent pair twice: the operand comes back as it is. *)
Theorem mul_no_terms_and_one (P : Polynome2D) :
  constructed P -> merged P ->
  mul P (no_terms (degree P)) = Ok (no_terms (degree P))
  /\ mul (no_terms (degree P)) P = Ok (no_terms (degree P))
  /\ mul P (constant_one (degree P)) = Ok P
  /\ mul (constant_one (degree P)) P = Ok P.
Proof.
  intros HP Hm.
  rewrite (mul_Ok P (no_terms _) eq_refl), (mul_Ok (no_terms _) P eq_refl),
          (mul_Ok P (constant_one _) eq_refl), (mul_Ok (constant_one _) P eq_refl).
  cbn [no_terms constant_one coefficients degree].
  rewrite cross_product_nil_r, cross_product_one_r, cross_product_one_l.
  change (cross_product [] (coefficients P)) with (@nil term).
  apply constructed_within in HP.
  rewrite !filter_Forall_id by first [exact HP | constructor].
  cbn [foldl]. rewrite foldl_merge_fresh by exact Hm. cbn [app].
  rewrite fmap_term_id, constructed_eta. auto.
Qed.

Lemma mul_no_terms_and_one_witness :
  mul poly (no_terms (degree poly)) = Ok (no_terms (degree poly))
  /\ mul (no_terms (degree poly)) poly = Ok (no_terms (degree poly))
  /\ mul poly (constant_one (degree poly)) = Ok poly
  /\ mul (constant_one (degree poly)) poly = Ok poly.
Proof.
  apply (mul_no_terms_and_one poly); [reflexivity|].
  unfold merged. apply (bool_decide_unpack _). vm_compute. exact I.
Defined.

(** ** Subtracting a polynomial from itself *)

Lemma foldl_sub_self pre ts :
  NoDup (degs (pre ++ ts)) ->
  foldl (merge_term Qcminus Qcopp) (pre ++ ts) ts
  = pre ++ ((fun t => (0, snd t)) <$> ts).
Proof.
  revert pre. induction ts as [|[c k] ts IH]; intros pre Hnd; [reflexivity|].
  cbn [foldl]. rewrite merge_term_app_absent.
  - destruct k as [dx dy]. rewrite merge_term_cons.
    unfold same_degs, deg_x_of, deg_y_of, coef_of. cbn [fst snd].
    rewrite !Z.eqb_refl. cbn [andb].
    replace (c - c) with (Q2Qc 0) by ring.
    change (pre ++ (Q2Qc 0, (dx, dy)) :: ts)
      with (pre ++ [(Q2Qc 0, (dx, dy))] ++ ts).
    rewrite app_assoc, IH.
    + rewrite <- app_assoc. reflexivity.
    + rewrite <- app_assoc. rewrite !degs_app in *. exact Hnd.
  - rewrite degs_app, degs_cons in Hnd. cbn [snd] in Hnd.
    apply NoDup_app in Hnd as (_ & Hdis & _). intros Hk.
    apply (Hdis k Hk). left.
Qed.

Lemma repr_all_zero str_coef P :
  Forall (fun t => coef_of t = 0) (coefficients P) -> repr str_coef P = "0".
Proof.
  intros Hz. unfold repr. rewrite repr_loop. cbn [app].
  assert (Hnil : filter (fun t : term => coef_of t ≠ 0) (sorted (coefficients P)) = []).
  { apply filter_eq_nil. rewrite sorted_Permutation.
    eapply Forall_impl; [exact Hz|]. intros t Ht Hn. contradiction. }
  rewrite Hnil. reflexivity.
Qed.

(** X9: for a constructed polynomial that holds no exponent pair twice,
    [P - P] keeps every term of [P] in place with coefficient 0, and so
    renders as ["0"]. *)
Theorem sub_self_zero (P : Polynome2D) :
  constructed P -> merged P ->
  exists S, sub P P = Ok S
    /\ degree S = degree P
    /\ coefficients S = (fun t => (0, snd t)) <$> coefficients P
    /\ forall str_coef, repr str_coef S = "0".
Proof.
  intros HP Hm. rewrite (sub_Ok P P HP HP eq_refl). eexists.
  split; [reflexivity|]. split; [reflexivity|]. cbn [coefficients].
  assert (Hs : foldl (merge_term Qcminus Qcopp) (coefficients P) (coefficients P)
               = (fun t => (0, snd t)) <$> coefficients P)
    by exact (foldl_sub_self [] (coefficients P) Hm).
  rewrite Hs. split; [reflexivity|]. intros str_coef.
  apply repr_all_zero. cbn [coefficients].
  apply Forall_fmap, Forall_forall. reflexivity.
Qed.

Lemma sub_self_zero_witness :
  exists S, sub poly poly = Ok S
    /\ degree S = degree poly
    /\ coefficients S = (fun t => (0, snd t)) <$> coefficients poly
    /\ forall str_coef, repr str_coef S = "0".
Proof.
  apply (sub_self_zero poly); [reflexivity|].
  unfold merged. apply (bool_decide_unpack _). vm_compute. exact I.
Defined.

(** ** The product does not depend on the order of the operands *)

Lemma term_mul_comm t u : term_mul t u = term_mul u t.
Proof.
  unfold term_mul. f_equal; [ring|]. f_equal; lia.
Qed.

Lemma cross_product_cons_r t l1 l2 :
  cross_product l1 (t :: l2) ≡ₚ map (fun u => term_mul u t) l1 ++ cross_product l1 l2.
Proof.
  induction l1 as [|u l1 IH]; [reflexivity|].
  rewrite !cross_product_cons. cbn [map]. rewrite IH.
  rewrite <- !app_comm_cons. constructor.
  rewrite !app_assoc. apply Permutation_app_tail, Permutation_app_comm.
Qed.

Lemma cross_product_comm l1 l2 : cross_product l1 l2 ≡ₚ cross_product l2 l1.
Proof.
  induction l1 as [|t l1 IH].
  - rewrite cross_product_nil_r. reflexivity.
  - rewrite cross_product_cons, cross_product_cons_r, IH.
    apply Permutation_app_tail.
    rewrite (map_ext (term_mul t) (fun u => term_mul u t))
      by (intros; apply term_mul_comm).
    reflexivity.
Qed.

Lemma sum_of_Permutation f l1 l2 : l1 ≡ₚ l2 -> sum_of f l1 = sum_of f l2.
Proof.
  induction 1 as [|t l1 l2 _ IH|t u l|l1 l2 l3 _ IH1 _ IH2].
  - reflexivity.
  - rewrite !sum_of_cons, IH. reflexivity.
  - rewrite !sum_of_cons. ring.
  - congruence.
Qed.

Lemma forallb_Permutation (ok : term -> bool) l1 l2 :
  l1 ≡ₚ l2 -> forallb ok l1 = forallb ok l2.
Proof.
  induction 1 as [|t l1 l2 _ IH|t u l|l1 l2 l3 _ IH1 _ IH2]; cbn [forallb].
  - reflexivity.
  - by rewrite IH.
  - destruct (ok t), (ok u); reflexivity.
  - congruence.
Qed.

Lemma coef_at_Permutation k l1 l2 : l1 ≡ₚ l2 -> coef_at k l1 = coef_at k l2.
Proof. intros H. rewrite !coef_at_sum. by apply sum_of_Permutation. Qed.

(** X10: with equal bounds, [P * Q] and [Q * P] hold the same exponent
    pairs (possibly in another order), give each pair the same coefficient
    and evaluate alike everywhere, truncation included. *)
Theorem mul_commutes (P Q : Polynome2D) :
  degree P = degree Q ->
  exists R R', mul P Q = Ok R /\ mul Q P = Ok R'
    /\ degs (coefficients R) ≡ₚ degs (coefficients R')
    /\ (forall k, coef_at k (coefficients R) = coef_at k (coefficients R'))
    /\ (forall x y, eval R x y = eval R' x y).
Proof.
  intros Hd. rewrite (mul_Ok P Q Hd), (mul_Ok Q P (eq_sym Hd)).
  do 2 eexists. split; [reflexivity|]. split; [reflexivity|].
  cbn [coefficients]. rewrite <- Hd.
  assert (Hk : filter (within (degree P)) (cross_product (coefficients P) (coefficients Q))
               ≡ₚ filter (within (degree P))
                    (cross_product (coefficients Q) (coefficients P)))
    by (by rewrite cross_product_comm).
  set (k1 := filter _ (cross_product (coefficients P) _)) in *.
  set (k2 := filter _ (cross_product (coefficients Q) _)) in *.
  split; [|split].
  - apply NoDup_Permutation.
    + apply foldl_merge_NoDup. constructor.
    + apply foldl_merge_NoDup. constructor.
    + intros k. unfold degs. rewrite !foldl_merge_keys. by rewrite Hk.
  - intros k. rewrite !foldl_merge_coef_at. f_equal. by apply coef_at_Permutation.
  - intros x y. rewrite !eval_guarded. cbn [coefficients].
    rewrite !foldl_merge_forallb by apply term_ok_on_degs.
    rewrite !foldl_merge_plus_sum by apply term_value_additive.
    rewrite (forallb_Permutation _ _ _ Hk), (sum_of_Permutation _ _ _ Hk).
    reflexivity.
Qed.

Lemma mul_commutes_witness :
  exists R R', mul poly square_plus_one = Ok R /\ mul square_plus_one poly = Ok R'
    /\ degs (coefficients R) ≡ₚ degs (coefficients R')
    /\ (forall k, coef_at k (coefficients R) = coef_at k (coefficients R'))
    /\ (forall x y, eval R x y = eval R' x y).
Proof. apply (mul_commutes poly square_plus_one). reflexivity. Defined.

(** ** Evaluation at the origin *)

Lemma sum_of_eq f g l :
  (forall t, t ∈ l -> f t = g t) -> sum_of f l = sum_of g l.
Proof.
  induction l as [|t l IH]; intros H; [reflexivity|].
  rewrite !sum_of_cons, (H t) by left. rewrite IH; [reflexivity|].
  intros u Hu. apply H. by right.
Qed.

Lemma qpow_zero_base n : (0 <= n)%Z -> qpow 0 n = if decide (n = 0%Z) then 1 else 0.
Proof.
  intros Hn. unfold qpow. destruct (Z.leb_spec 0 n); [|lia].
  destruct (decide (n = 0%Z)) as [->|Hne]; [reflexivity|].
  apply Qcpower_0. lia.
Qed.

(** X11: a polynomial without negative exponents evaluates at the origin
    to its constant coefficient, the sum of the coefficients stored with the
    exponent pair (0, 0); in particular [0 ** 0] counts as 1. *)
Theorem eval_origin (P : Polynome2D) :
  nonneg_exps P -> eval P 0 0 = Ok (coef_at (0, 0)%Z (coefficients P)).
Proof.
  intros Hnn. rewrite eval_nonneg_total by exact Hnn. f_equal.
  rewrite coef_at_sum. apply sum_of_eq. intros [c [dx dy]] Ht.
  unfold nonneg_exps in Hnn. rewrite Forall_forall in Hnn.
  destruct (Hnn _ Ht) as [Hx Hy].
  unfold term_value, coef_of, deg_x_of, deg_y_of in *. cbn [fst snd] in *.
  rewrite !qpow_zero_base by assumption.
  destruct (decide (dx = 0%Z)) as [->|Hx0], (decide (dy = 0%Z)) as [->|Hy0];
    destruct (decide _) as [E|E]; try congruence; ring.
Qed.

Lemma eval_origin_witness :
  eval (mkPolynome2D 2 [(1 + 1, (0, 0)%Z); (1, (2, 1)%Z); (1, (0, 0)%Z)]) 0 0
  = Ok (coef_at (0, 0)%Z [(1 + 1, (0, 0)%Z); (1, (2, 1)%Z); (1, (0, 0)%Z)]).
Proof.
  apply (eval_origin (mkPolynome2D 2 [(1 + 1, (0, 0)%Z); (1, (2, 1)%Z); (1, (0, 0)%Z)])).
  unfold nonneg_exps. apply (bool_decide_unpack _). vm_compute. exact I.
Defined.

(** * The gradient *)

Lemma for_each_guarded_pair (ok : term -> bool) (f g : term -> Qc) l s :
  for_each (fun acc t => w ← guarded_pair (ok t) (f t, g t); Ok (pair_plus acc w)) l s
  = guarded_pair (forallb ok l) (pair_plus s (sum_of f l, sum_of g l)).
Proof.
  revert s. induction l as [|t l IH]; intros [sx sy]; cbn [for_each forallb].
  - unfold pair_plus. simpl. do 2 f_equal; ring.
  - destruct (ok t); cbn [guarded_pair mbind result_bind andb]; [|reflexivity].
    rewrite IH. unfold pair_plus. cbn [fst snd]. rewrite !sum_of_cons.
    destruct (forallb ok l); [|reflexivity]. simpl. do 2 f_equal; ring.
Qed.

Lemma py_pow_pred (x : Qc) (n : Z) :
  (n >? 0)%Z = true -> py_pow x (n - 1) = Ok (qpow x (n - 1)).
Proof.
  intros Hn. apply Z.gtb_lt in Hn. rewrite py_pow_guarded. unfold pow_ok.
  destruct (Z.leb_spec 0 (n - 1)); [reflexivity|lia].
Qed.

(** [gradient] adds up, for each partial, the contributions of the terms
    with a positive exponent on that axis, and raises only on zero to a
    negative power in the other variable of such a term. *)
Lemma gradient_guarded P x y :
  gradient P x y
  = guarded_pair (forallb (grad_ok x y) (coefficients P))
      (sum_of (grad_x_term x y) (coefficients P),
       sum_of (grad_y_term x y) (coefficients P)).
Proof.
  unfold gradient.
  rewrite (for_each_ext _ (fun acc t =>
    w ← guarded_pair (grad_ok x y t) (grad_x_term x y t, grad_y_term x y t);
    Ok (pair_plus acc w))).
  - rewrite for_each_guarded_pair. unfold pair_plus. cbn [fst snd].
    f_equal. f_equal; ring.
  - intros [gx gy] [c [dx dy]] _.
    unfold grad_ok, grad_x_term, grad_y_term, pair_plus, coef_of, deg_x_of, deg_y_of.
    cbn [fst snd].
    destruct (dx >? 0)%Z eqn:Ex, (dy >? 0)%Z eqn:Ey; cbn [negb orb andb].
    + rewrite (py_pow_pred x dx Ex), (py_pow_pred y dy Ey),
        (py_pow_guarded y dy), (py_pow_guarded x dx).
      destruct (pow_ok y dy), (pow_ok x dx); reflexivity.
    + rewrite (py_pow_pred x dx Ex), (py_pow_guarded y dy).
      destruct (pow_ok y dy); cbn; [do 2 f_equal; ring|reflexivity].
    + rewrite (py_pow_pred y dy Ey), (py_pow_guarded x dx).
      destruct (pow_ok x dx); cbn; [do 2 f_equal; ring|reflexivity].
    + cbn. do 2 f_equal; ring.
Qed.

Lemma grad_ok_of_term_ok x y t : term_ok x y t = true -> grad_ok x y t = true.
Proof.
  unfold term_ok, grad_ok. rewrite !andb_true_iff. intros [-> ->].
  rewrite !orb_true_r. auto.
Qed.

Lemma forallb_filter_true (ok : term -> bool) (P : term -> Prop)
    `{forall t, Decision (P t)} l :
  (forall t, ¬ P t -> ok t = true) -> forallb ok l = forallb ok (filter P l).
Proof.
  intros Hs. induction l as [|t l IH]; [reflexivity|].
  cbn [forallb]. rewrite filter_cons, IH.
  destruct (decide (P t)) as [Ht|Ht]; [reflexivity|]. by rewrite (Hs t Ht).
Qed.

Lemma sum_of_filter_zero (f : term -> Qc) (P : term -> Prop)
    `{forall t, Decision (P t)} l :
  (forall t, ¬ P t -> f t = 0) -> sum_of f l = sum_of f (filter P l).
Proof.
  intros Hs. induction l as [|t l IH]; [reflexivity|].
  rewrite sum_of_cons, filter_cons, IH.
  destruct (decide (P t)) as [Ht|Ht]; [reflexivity|]. rewrite (Hs t Ht). ring.
Qed.

Lemma grad_ok_false_y x y t :
  y = 0 -> (0 < deg_x_of t)%Z -> (deg_y_of t < 0)%Z -> grad_ok x y t = false.
Proof.
  intros -> Hx Hy. unfold grad_ok, pow_ok.
  destruct (Z.gtb_spec (deg_x_of t) 0); [|lia].
  destruct (Z.leb_spec 0 (deg_y_of t)); [lia|].
  rewrite bool_decide_eq_true_2 by reflexivity. reflexivity.
Qed.

Lemma grad_ok_false_x x y t :
  x = 0 -> (0 < deg_y_of t)%Z -> (deg_x_of t < 0)%Z -> grad_ok x y t = false.
Proof.
  intros -> Hy Hx. unfold grad_ok, pow_ok.
  destruct (Z.gtb_spec (deg_y_of t) 0); [|lia].
  destruct (Z.leb_spec 0 (deg_x_of t)); [lia|].
  rewrite (bool_decide_eq_true_2 (Q2Qc 0 = Q2Qc 0) eq_refl). apply andb_false_r.
Qed.

(** X12: when [gradient] returns, the first component is the sum, over the
    terms with a positive [deg_x], of [coef * deg_x * x^(deg_x - 1) *
    y^deg_y], and the second the sum, over the terms with a positive
    [deg_y], of [coef * deg_y * x^deg_x * y^(deg_y - 1)]; a term whose
    exponent on an axis is zero or negative adds nothing to that partial,
    and a term with no positive exponent is skipped altogether.  The call
    raises instead of returning when [y] is 0 and a term with a positive
    [deg_x] has a negative [deg_y], or [x] is 0 and a term with a positive
    [deg_y] has a negative [deg_x]. *)
Theorem gradient_partials (P : Polynome2D) (x y : Qc) :
  (forall gx gy, gradient P x y = Ok (gx, gy) ->
     gx = sum_of (grad_x_term x y) (coefficients P)
     /\ gy = sum_of (grad_y_term x y) (coefficients P))
  /\ (forall c dx dy, (dx <= 0)%Z -> grad_x_term x y (c, (dx, dy)) = 0)
  /\ (forall c dx dy, (dy <= 0)%Z -> grad_y_term x y (c, (dx, dy)) = 0)
  /\ gradient P x y
     = gradient (mkPolynome2D (degree P)
                   (filter (fun t : term => (0 < deg_x_of t)%Z \/ (0 < deg_y_of t)%Z)
                      (coefficients P))) x y
  /\ (y = 0 ->
      Exists (fun t => (0 < deg_x_of t)%Z /\ (deg_y_of t < 0)%Z) (coefficients P) ->
      forall g, gradient P x y ≠ Ok g)
  /\ (x = 0 ->
      Exists (fun t => (0 < deg_y_of t)%Z /\ (deg_x_of t < 0)%Z) (coefficients P) ->
      forall g, gradient P x y ≠ Ok g).
Proof.
  split; [|split; [|split; [|split; [|split]]]].
  - intros gx gy. rewrite gradient_guarded.
    destruct (forallb _ _); [|discriminate]. intros [= <- <-]. auto.
  - intros c dx dy H. unfold grad_x_term, deg_x_of. cbn [fst snd].
    destruct (Z.gtb_spec dx 0); [lia|reflexivity].
  - intros c dx dy H. unfold grad_y_term, deg_y_of. cbn [fst snd].
    destruct (Z.gtb_spec dy 0); [lia|reflexivity].
  - rewrite !gradient_guarded. cbn [coefficients].
    rewrite <- (forallb_filter_true (grad_ok x y)), <- !sum_of_filter_zero.
    + reflexivity.
    + intros t Ht. unfold grad_y_term.
      destruct (Z.gtb_spec (deg_y_of t) 0); [|reflexivity]. exfalso. apply Ht. by right.
    + intros t Ht. unfold grad_x_term.
      destruct (Z.gtb_spec (deg_x_of t) 0); [|reflexivity]. exfalso. apply Ht. by left.
    + intros t Ht. unfold grad_ok.
      destruct (Z.gtb_spec (deg_x_of t) 0); [exfalso; apply Ht; by left|].
      destruct (Z.gtb_spec (deg_y_of t) 0); [exfalso; apply Ht; by right|].
      reflexivity.
  - intros Hy Hex g. rewrite gradient_guarded.
    replace (forallb (grad_ok x y) (coefficients P)) with false; [discriminate|].
    symmetry. apply not_true_is_false. intros Hok. rewrite forallb_forall in Hok.
    apply Exists_exists in Hex as (t & Ht & Hx & Hd).
    apply list_elem_of_In, Hok in Ht. rewrite grad_ok_false_y in Ht by assumption.
    discriminate.
  - intros Hx Hex g. rewrite gradient_guarded.
    replace (forallb (grad_ok x y) (coefficients P)) with false; [discriminate|].
    symmetry. apply not_true_is_false. intros Hok. rewrite forallb_forall in Hok.
    apply Exists_exists in Hex as (t & Ht & Hy & Hd).
    apply list_elem_of_In, Hok in Ht. rewrite grad_ok_false_x in Ht by assumption.
    discriminate.
Qed.

Lemma lift2_guarded_pair b1 v1 b2 v2 :
  lift2 pair_plus (guarded_pair b1 v1) (guarded_pair b2 v2)
  = guarded_pair (b1 && b2) (pair_plus v1 v2).
Proof. destruct b1, b2; reflexivity. Qed.

Lemma grad_ok_on_degs x y : on_degs (grad_ok x y).
Proof. intros c1 c2 k. reflexivity. Qed.

Lemma grad_x_term_additive x y : additive (grad_x_term x y).
Proof.
  intros c1 c2 [dx dy]. unfold grad_x_term, coef_of, deg_x_of, deg_y_of.
  cbn [fst snd]. destruct (dx >? 0)%Z; ring.
Qed.

Lemma grad_y_term_additive x y : additive (grad_y_term x y).
Proof.
  intros c1 c2 [dx dy]. unfold grad_y_term, coef_of, deg_x_of, deg_y_of.
  cbn [fst snd]. destruct (dy >? 0)%Z; ring.
Qed.

(** X13: for constructed operands with the same bound, the gradient of
    [P + Q] is the componentwise sum of the two gradients, as outcomes. *)
Theorem gradient_add (P Q : Polynome2D) (x y : Qc) :
  constructed P -> constructed Q -> degree P = degree Q ->
  exists R, add P Q = Ok R
    /\ gradient R x y = lift2 pair_plus (gradient P x y) (gradient Q x y).
Proof.
  intros HP HQ Hd. rewrite add_Ok by assumption. eexists.
  split; [reflexivity|].
  rewrite !gradient_guarded, lift2_guarded_pair. cbn [coefficients].
  rewrite foldl_merge_forallb by apply grad_ok_on_degs.
  rewrite !foldl_merge_plus_sum
    by first [apply grad_x_term_additive | apply grad_y_term_additive].
  reflexivity.
Qed.

Lemma gradient_add_witness :
  exists R, add poly plain_x = Ok R
    /\ gradient R 1 1 = lift2 pair_plus (gradient poly 1 1) (gradient plain_x 1 1).
Proof. apply (gradient_add poly plain_x 1 1); reflexivity. Defined.

(** ** The product rule *)

Lemma cross_product_sum_bilinear (F G H G' H' : term -> Qc) l1 l2 :
  (forall t1 t2, t1 ∈ l1 -> t2 ∈ l2 ->
     F (term_mul t1 t2) = G t1 * H t2 + G' t1 * H' t2) ->
  sum_of F (cross_product l1 l2)
  = sum_of G l1 * sum_of H l2 + sum_of G' l1 * sum_of H' l2.
Proof.
  intros HF. induction l1 as [|t1 l1 IH]; [simpl; ring|].
  rewrite cross_product_cons, sum_of_app, IH, !sum_of_cons.
  - assert (Hrow : sum_of F (map (term_mul t1) l2)
                   = G t1 * sum_of H l2 + G' t1 * sum_of H' l2).
    { assert (Ht1 : forall t2, t2 ∈ l2 ->
                F (term_mul t1 t2) = G t1 * H t2 + G' t1 * H' t2)
        by (intros; apply HF; [left|assumption]).
      clear IH HF. induction l2 as [|t2 l2 IH2]; [simpl; ring|].
      cbn [map]. rewrite !sum_of_cons, IH2, Ht1.
      - ring.
      - left.
      - intros t Ht. apply Ht1. by right. }
    rewrite Hrow. ring.
  - intros t1' t2 H1 H2. apply HF; [by right|assumption].
Qed.

Lemma pow_ok_nonneg x n : (0 <= n)%Z -> pow_ok x n = true.
Proof. intros H. apply pow_ok_true. auto. Qed.

Lemma grad_x_term_mul x y t1 t2 :
  (0 <= deg_x_of t1)%Z -> (0 <= deg_y_of t1)%Z ->
  (0 <= deg_x_of t2)%Z -> (0 <= deg_y_of t2)%Z ->
  grad_x_term x y (term_mul t1 t2)
  = grad_x_term x y t1 * term_value x y t2 + term_value x y t1 * grad_x_term x y t2.
Proof.
  destruct t1 as [c1 [a1 b1]], t2 as [c2 [a2 b2]].
  unfold grad_x_term, term_value, term_mul, coef_of, deg_x_of, deg_y_of.
  cbn [fst snd]. intros Ha1 Hb1 Ha2 Hb2.
  rewrite (qpow_add y b1 b2) by (by apply pow_ok_nonneg).
  destruct (Z.gtb_spec a1 0) as [H1|H1], (Z.gtb_spec a2 0) as [H2|H2];
    destruct (Z.gtb_spec (a1 + a2) 0) as [H12|H12]; try lia.
  - rewrite Z2Qc_inj_add.
    assert (E1 : qpow x (a1 + a2 - 1) = qpow x (a1 - 1) * qpow x a2).
    { rewrite <- qpow_add by (apply pow_ok_nonneg; lia). f_equal. lia. }
    assert (E2 : qpow x (a1 + a2 - 1) = qpow x a1 * qpow x (a2 - 1)).
    { rewrite <- qpow_add by (apply pow_ok_nonneg; lia). f_equal. lia. }
    transitivity
      (c1 * c2 * Qc_of_Z a1 * qpow x (a1 + a2 - 1) * (qpow y b1 * qpow y b2)
       + c1 * c2 * Qc_of_Z a2 * qpow x (a1 + a2 - 1) * (qpow y b1 * qpow y b2));
      [ring|].
    rewrite E1 at 1. rewrite E2. ring.
  - assert (a2 = 0%Z) as -> by lia. rewrite Z.add_0_r.
    change (qpow x 0) with (Q2Qc 1). ring.
  - assert (a1 = 0%Z) as -> by lia. rewrite Z.add_0_l.
    change (qpow x 0) with (Q2Qc 1). ring.
  - ring.
Qed.

Lemma term_swap_value x y t :
  term_value y x (coef_of t, (deg_y_of t, deg_x_of t)) = term_value x y t.
Proof. unfold term_value, coef_of, deg_x_of, deg_y_of. cbn [fst snd]. ring. Qed.

Lemma grad_y_term_mul x y t1 t2 :
  (0 <= deg_x_of t1)%Z -> (0 <= deg_y_of t1)%Z ->
  (0 <= deg_x_of t2)%Z -> (0 <= deg_y_of t2)%Z ->
  grad_y_term x y (term_mul t1 t2)
  = grad_y_term x y t1 * term_value x y t2 + term_value x y t1 * grad_y_term x y t2.
Proof.
  destruct t1 as [c1 [a1 b1]], t2 as [c2 [a2 b2]]. intros Ha1 Hb1 Ha2 Hb2.
  pose proof (grad_x_term_mul y x (c1, (b1, a1)) (c2, (b2, a2)) Hb1 Ha1 Hb2 Ha2) as H.
  unfold grad_x_term, grad_y_term, term_value, term_mul, coef_of, deg_x_of, deg_y_of
    in *. cbn [fst snd] in *.
  destruct (b1 + b2 >? 0)%Z, (b1 >? 0)%Z, (b2 >? 0)%Z;
    (etransitivity; [etransitivity; [|exact H]|]); ring.
Qed.

(** X14: the product rule.  With equal bounds, no truncation and no
    negative exponent in either operand, the gradient of [P * Q] at a point
    is [grad P * Q + P * grad Q], componentwise, in terms of the values and
    gradients the operands return there. *)
Theorem gradient_product_rule (P Q : Polynome2D) (x y p q px py qx qy : Qc) :
  degree P = degree Q -> no_truncation P Q ->
  nonneg_exps P -> nonneg_exps Q ->
  eval P x y = Ok p -> eval Q x y = Ok q ->
  gradient P x y = Ok (px, py) -> gradient Q x y = Ok (qx, qy) ->
  exists R, mul P Q = Ok R
    /\ gradient R x y = Ok (px * q + p * qx, py * q + p * qy).
Proof.
  intros Hd Hnt HnP HnQ HP HQ HgP HgQ. rewrite mul_Ok by exact Hd.
  eexists. split; [reflexivity|].
  rewrite eval_nonneg_total in HP, HQ by assumption.
  injection HP as <-. injection HQ as <-.
  rewrite gradient_guarded in HgP, HgQ |- *. cbn [coefficients].
  unfold guarded_pair in HgP, HgQ.
  destruct (forallb (grad_ok x y) (coefficients P)); [|discriminate].
  destruct (forallb (grad_ok x y) (coefficients Q)); [|discriminate].
  injection HgP as <- <-. injection HgQ as <- <-.
  rewrite filter_Forall_id by exact Hnt.
  rewrite foldl_merge_forallb by apply grad_ok_on_degs.
  rewrite !foldl_merge_plus_sum
    by first [apply grad_x_term_additive | apply grad_y_term_additive].
  cbn [forallb sum_of foldr andb].
  unfold nonneg_exps in HnP, HnQ. rewrite Forall_forall in HnP, HnQ.
  assert (Hok : forallb (grad_ok x y)
                  (cross_product (coefficients P) (coefficients Q)) = true).
  { apply forallb_forall. intros t Ht.
    apply list_elem_of_In, elem_of_cross_product in Ht as (t1 & t2 & H1 & H2 & ->).
    destruct (HnP _ H1), (HnQ _ H2).
    apply grad_ok_of_term_ok. unfold term_ok, term_mul, deg_x_of, deg_y_of in *.
    cbn [fst snd] in *. apply andb_true_iff. split; apply pow_ok_nonneg; lia. }
  rewrite Hok. cbn [guarded_pair]. f_equal.
  rewrite (cross_product_sum_bilinear (grad_x_term x y) (grad_x_term x y)
             (term_value x y) (term_value x y) (grad_x_term x y)).
  - rewrite (cross_product_sum_bilinear (grad_y_term x y) (grad_y_term x y)
               (term_value x y) (term_value x y) (grad_y_term x y)).
    + f_equal; ring.
    + intros t1 t2 H1 H2. destruct (HnP _ H1), (HnQ _ H2).
      by apply grad_y_term_mul.
  - intros t1 t2 H1 H2. destruct (HnP _ H1), (HnQ _ H2).
    by apply grad_x_term_mul.
Qed.

Lemma gradient_product_rule_witness :
  exists R, mul (mkPolynome2D 2 [(Q2Qc (3 # 1), (1, 0)%Z); (1, (0, 1)%Z)]) plain_x = Ok R
    /\ gradient R 1 (1 + 1)
       = Ok (Q2Qc (3 # 1) * 1 + Q2Qc (5 # 1) * 1, 1 * 1 + Q2Qc (5 # 1) * 0).
Proof.
  apply (gradient_product_rule
           (mkPolynome2D 2 [(Q2Qc (3 # 1), (1, 0)%Z); (1, (0, 1)%Z)]) plain_x
           1 (1 + 1) (Q2Qc (5 # 1)) 1 (Q2Qc (3 # 1)) 1 1 0).
  - reflexivity.
  - apply (bool_decide_unpack _). vm_compute. exact I.
  - apply (bool_decide_unpack _). vm_compute. exact I.
  - apply (bool_decide_unpack _). vm_compute. exact I.
  - vm_compute. reflexivity.
  - vm_compute. reflexivity.
  - vm_compute. reflexivity.
  - vm_compute. reflexivity.
Defined.

(** * Further properties of the integrals *)

Lemma integrer_x_guarded_all np_log P a b v :
  integrer_x np_log P a b v
  = guarded (forallb (fun t => (deg_x_of t <? 0)%Z || pow_ok v (deg_y_of t))
               (coefficients P))
            (sum_of (fun t => if (deg_x_of t <? 0)%Z then 0 else contribution_x a b v t)
               (coefficients P)).
Proof.
  rewrite integrer_x_guarded. unfold nonneg_x.
  rewrite <- (forallb_skip_filter (fun t => (deg_x_of t <? 0)%Z)
                (fun t => (0 <= deg_x_of t)%Z))
    by (intros; apply ltb_0_skip).
  rewrite <- (sum_of_skip_filter (fun t => (deg_x_of t <? 0)%Z)
                (fun t => (0 <= deg_x_of t)%Z))
    by (intros; apply ltb_0_skip).
  reflexivity.
Qed.

Lemma integrer_y_guarded_all np_log P c d v :
  integrer_y np_log P c d v
  = guarded (forallb (fun t => (deg_y_of t <? 0)%Z || pow_ok v (deg_x_of t))
               (coefficients P))
            (sum_of (fun t => if (deg_y_of t <? 0)%Z then 0 else contribution_y c d v t)
               (coefficients P)).
Proof.
  rewrite integrer_y_guarded. unfold nonneg_y.
  rewrite <- (forallb_skip_filter (fun t => (deg_y_of t <? 0)%Z)
                (fun t => (0 <= deg_y_of t)%Z))
    by (intros; apply ltb_0_skip).
  rewrite <- (sum_of_skip_filter (fun t => (deg_y_of t <? 0)%Z)
                (fun t => (0 <= deg_y_of t)%Z))
    by (intros; apply ltb_0_skip).
  reflexivity.
Qed.

Lemma contribution_x_additive a b v :
  additive (fun t => if (deg_x_of t <? 0)%Z then 0 else contribution_x a b v t).
Proof.
  intros c1 c2 [dx dy].
  unfold contribution_x, contribution, coef_of, deg_x_of, deg_y_of, Qcdiv.
  cbn [fst snd]. destruct (dx <? 0)%Z; ring.
Qed.

Lemma contribution_y_additive c d v :
  additive (fun t => if (deg_y_of t <? 0)%Z then 0 else contribution_y c d v t).
Proof.
  intros c1 c2 [dx dy].
  unfold contribution_y, contribution, coef_of, deg_x_of, deg_y_of, Qcdiv.
  cbn [fst snd]. destruct (dy <? 0)%Z; ring.
Qed.

(** X15: on exact rationals ([fractions.Fraction] coefficients, bounds and
    held value), for constructed operands with the same bound, the integral
    of [P + Q] along either axis is the sum of the two integrals, as
    outcomes. *)
Theorem integrer_add (np_log : Qc -> result Qc) (P Q : Polynome2D) (lo hi v : Qc) :
  constructed P -> constructed Q -> degree P = degree Q ->
  exists R, add P Q = Ok R
    /\ integrer_x np_log R lo hi v
       = lift2 Qcplus (integrer_x np_log P lo hi v) (integrer_x np_log Q lo hi v)
    /\ integrer_y np_log R lo hi v
       = lift2 Qcplus (integrer_y np_log P lo hi v) (integrer_y np_log Q lo hi v).
Proof.
  intros HP HQ Hd. rewrite add_Ok by assumption. eexists.
  split; [reflexivity|].
  rewrite !integrer_x_guarded_all, !integrer_y_guarded_all, !lift2_guarded.
  cbn [coefficients].
  rewrite !foldl_merge_forallb by (intros c1 c2 k; reflexivity).
  rewrite (foldl_merge_plus_sum _ _ _ (contribution_x_additive lo hi v)).
  rewrite (foldl_merge_plus_sum _ _ _ (contribution_y_additive lo hi v)).
  split; reflexivity.
Qed.

Lemma integrer_add_witness :
  exists R, add poly inverse_x = Ok R
    /\ integrer_x (fun _ => Ok 0) R 1 (1 + 1) 0
       = lift2 Qcplus (integrer_x (fun _ => Ok 0) poly 1 (1 + 1) 0)
                      (integrer_x (fun _ => Ok 0) inverse_x 1 (1 + 1) 0)
    /\ integrer_y (fun _ => Ok 0) R 1 (1 + 1) 0
       = lift2 Qcplus (integrer_y (fun _ => Ok 0) poly 1 (1 + 1) 0)
                      (integrer_y (fun _ => Ok 0) inverse_x 1 (1 + 1) 0).
Proof.
  apply (integrer_add (fun _ => Ok 0) poly inverse_x 1 (1 + 1) 0); reflexivity.
Defined.

Lemma sum_of_plus f g l : sum_of f l + sum_of g l = sum_of (fun t => f t + g t) l.
Proof.
  induction l as [|t l IH]; [simpl; ring|]. rewrite !sum_of_cons, <- IH. ring.
Qed.

Lemma sum_of_opp f l : - sum_of f l = sum_of (fun t => - f t) l.
Proof.
  induction l as [|t l IH]; [simpl; ring|]. rewrite !sum_of_cons, <- IH. ring.
Qed.

Lemma contribution_chain lo mid hi v c n m :
  contribution lo mid v c n m + contribution mid hi v c n m
  = contribution lo hi v c n m.
Proof. unfold contribution, Qcdiv. ring. Qed.

Lemma contribution_reverse lo hi v c n m :
  contribution hi lo v c n m = - contribution lo hi v c n m.
Proof. unfold contribution, Qcdiv. ring. Qed.

(** X16: on exact rationals ([fractions.Fraction] coefficients, bounds and
    held value) the integrals are additive in the interval and change sign
    when the bounds are swapped: the integral over [a, b] plus the one over
    [b, c] is the one over [a, c], and the one over [b, a] is the negation
    of the one over [a, b], as outcomes. *)
Theorem integrer_intervals (np_log : Qc -> result Qc) (P : Polynome2D) (a b c v : Qc) :
  lift2 Qcplus (integrer_x np_log P a b v) (integrer_x np_log P b c v)
    = integrer_x np_log P a c v
  /\ integrer_x np_log P b a v = (r ← integrer_x np_log P a b v; Ok (- r))
  /\ lift2 Qcplus (integrer_y np_log P a b v) (integrer_y np_log P b c v)
    = integrer_y np_log P a c v
  /\ integrer_y np_log P b a v = (r ← integrer_y np_log P a b v; Ok (- r)).
Proof.
  rewrite !integrer_x_guarded, !integrer_y_guarded, !lift2_guarded.
  rewrite !andb_diag, !sum_of_plus.
  repeat split.
  - f_equal. apply sum_of_eq. intros t _. apply contribution_chain.
  - destruct (forallb _ _); [|reflexivity]. cbn. f_equal.
    rewrite sum_of_opp. apply sum_of_eq. intros t _. apply contribution_reverse.
  - f_equal. apply sum_of_eq. intros t _. apply contribution_chain.
  - destruct (forallb _ _); [|reflexivity]. cbn. f_equal.
    rewrite sum_of_opp. apply sum_of_eq. intros t _. apply contribution_reverse.
Qed.

(** * The order of the stored terms *)

(** X17: the order in which the terms are stored does not matter to
    [eval] and [gradient]: of two polynomials whose term lists are
    permutations of one another, one returns a value at a point exactly
    when the other does, and then it is the same value. *)
Theorem term_order_irrelevant (P Q : Polynome2D) (x y : Qc) :
  coefficients P ≡ₚ coefficients Q ->
  (forall v, eval P x y = Ok v <-> eval Q x y = Ok v)
  /\ (forall g, gradient P x y = Ok g <-> gradient Q x y = Ok g).
Proof.
  intros Hp. rewrite !eval_guarded, !gradient_guarded.
  rewrite !(forallb_Permutation _ _ _ Hp), !(sum_of_Permutation _ _ _ Hp).
  split; reflexivity.
Qed.

Lemma term_order_irrelevant_witness :
  (forall v, eval poly 1 (1 + 1) = Ok v
             <-> eval (mkPolynome2D 2 (reverse coeffs1)) 1 (1 + 1) = Ok v)
  /\ (forall g, gradient poly 1 (1 + 1) = Ok g
               <-> gradient (mkPolynome2D 2 (reverse coeffs1)) 1 (1 + 1) = Ok g).
Proof.
  apply (term_order_irrelevant poly (mkPolynome2D 2 (reverse coeffs1)) 1 (1 + 1)).
  cbn [coefficients poly]. symmetry. apply reverse_Permutation.
Defined.

Lemma key_le_antisym t u : key_le t u -> key_le u t -> snd t = snd u.
Proof.
  destruct t as [c [dx dy]], u as [c' [dx' dy']].
  unfold key_le, deg_x_of, deg_y_of. cbn [fst snd]. intros H1 H2.
  f_equal; lia.
Qed.

Lemma StronglySorted_unique l1 l2 :
  StronglySorted key_le l1 -> StronglySorted key_le l2 ->
  l1 ≡ₚ l2 -> NoDup (degs l1) -> l1 = l2.
Proof.
  intros H1. revert l2. induction H1 as [|h1 t1 Ht1 IH Hh1]; intros l2 H2 Hp Hnd.
  - by apply Permutation_nil_l in Hp.
  - destruct H2 as [|h2 t2 Ht2 Hh2]; [by apply Permutation_nil_r in Hp|].
    rewrite degs_cons in Hnd. apply NoDup_cons in Hnd as [Hh Hnd].
    assert (h1 = h2) as <-.
    { assert (Hin2 : h2 ∈ h1 :: t1) by (rewrite Hp; left).
      assert (Hin1 : h1 ∈ h2 :: t2) by (rewrite <- Hp; left).
      apply elem_of_cons in Hin2 as [->|Hin2]; [reflexivity|].
      apply elem_of_cons in Hin1 as [->|Hin1]; [reflexivity|].
      exfalso. apply Hh.
      rewrite Forall_forall in Hh1, Hh2.
      rewrite (key_le_antisym h1 h2 (Hh1 _ Hin2) (Hh2 _ Hin1)).
      apply list_elem_of_fmap. eauto. }
    f_equal. apply IH; [exact Ht2| |exact Hnd].
    by apply Permutation_cons_inv in Hp.
Qed.

(** X18: the rendering does not depend on the order of the stored terms
    when no exponent pair is stored twice. *)
Theorem repr_order_irrelevant (str_coef : Qc -> string) (P Q : Polynome2D) :
  coefficients P ≡ₚ coefficients Q -> merged P ->
  repr str_coef P = repr str_coef Q.
Proof.
  intros Hp Hm. unfold repr.
  assert (Hs : sorted (coefficients P) = sorted (coefficients Q)); [|by rewrite Hs].
  apply StronglySorted_unique; try apply sorted_StronglySorted.
  - by rewrite !sorted_Permutation.
  - unfold merged, degs in *. by rewrite sorted_Permutation.
Qed.

Lemma repr_order_irrelevant_witness :
  repr (fun c => pretty (Qnum (this c))) poly
  = repr (fun c => pretty (Qnum (this c))) (mkPolynome2D 2 (reverse coeffs1)).
Proof.
  apply (repr_order_irrelevant _ poly (mkPolynome2D 2 (reverse coeffs1))).
  - cbn [coefficients poly]. symmetry. apply reverse_Permutation.
  - unfold merged. apply (bool_decide_unpack _). vm_compute. exact I.
Defined.

(** * The product distributes over the sum *)

Section Distributivity.
Variable d : Z.
Variable lS : list term.

Lemma sum_of_kept_cross f l :
  sum_of f (filter (within d) (cross_product l lS))
  = sum_of (fun t => sum_of f (filter (within d) (map (term_mul t) lS))) l.
Proof.
  induction l as [|t l IH]; [reflexivity|].
  rewrite cross_product_cons, filter_app, sum_of_app, sum_of_cons, IH. reflexivity.
Qed.

Lemma forallb_kept_cross (ok : term -> bool) l :
  forallb ok (filter (within d) (cross_product l lS))
  = forallb (fun t => forallb ok (filter (within d) (map (term_mul t) lS))) l.
Proof.
  induction l as [|t l IH]; [reflexivity|].
  rewrite cross_product_cons, filter_app, forallb_app. cbn [forallb].
  rewrite IH. reflexivity.
Qed.

Lemma row_sum_additive f :
  additive f ->
  additive (fun t => sum_of f (filter (within d) (map (term_mul t) lS))).
Proof.
  intros Hf c1 c2 k. generalize lS. intros l.
  induction l as [|s l IH]; [simpl; ring|].
  cbn [map]. rewrite !filter_cons.
  assert (Hs : f (term_mul (c1 + c2, k) s)
               = f (term_mul (c1, k) s) + f (term_mul (c2, k) s)).
  { unfold term_mul, coef_of, deg_x_of, deg_y_of. cbn [fst snd].
    rewrite Qcmult_plus_distr_l. apply Hf. }
  destruct (decide (within d (term_mul (c1 + c2, k) s))) as [H|H];
    destruct (decide (within d (term_mul (c1, k) s))) as [H1|H1];
    try (exfalso; first [apply H; exact H1 | apply H1; exact H]);
    destruct (decide (within d (term_mul (c2, k) s))) as [H2|H2];
    try (exfalso; first [apply H; exact H2 | apply H2; exact H]).
  - rewrite !sum_of_cons, IH, Hs. ring.
  - exact IH.
Qed.

Lemma row_forallb_on_degs ok :
  on_degs ok ->
  on_degs (fun t => forallb ok (filter (within d) (map (term_mul t) lS))).
Proof.
  intros Hok c1 c2 k. generalize lS. intros l.
  induction l as [|s l IH]; [reflexivity|].
  cbn [map]. rewrite !filter_cons.
  assert (Hs : ok (term_mul (c1, k) s) = ok (term_mul (c2, k) s))
    by apply Hok.
  destruct (decide (within d (term_mul (c1, k) s))) as [H1|H1];
    destruct (decide (within d (term_mul (c2, k) s))) as [H2|H2];
    try (exfalso; first [apply H1; exact H2 | apply H2; exact H1]).
  - cbn [forallb]. rewrite IH, Hs. reflexivity.
  - exact IH.
Qed.

Lemma distrib_sum f lP lQ :
  additive f ->
  sum_of f (foldl (merge_term Qcplus (fun c => c)) []
              (filter (within d)
                 (cross_product (foldl (merge_term Qcplus (fun c => c)) lP lQ) lS)))
  = sum_of f (foldl (merge_term Qcplus (fun c => c))
                (foldl (merge_term Qcplus (fun c => c)) []
                   (filter (within d) (cross_product lP lS)))
                (foldl (merge_term Qcplus (fun c => c)) []
                   (filter (within d) (cross_product lQ lS)))).
Proof.
  intros Hf. rewrite !foldl_merge_plus_sum by exact Hf.
  rewrite !sum_of_kept_cross.
  rewrite (foldl_merge_plus_sum _ _ _ (row_sum_additive f Hf)).
  cbn [sum_of foldr]. ring.
Qed.

Lemma distrib_forallb ok lP lQ :
  on_degs ok ->
  forallb ok (foldl (merge_term Qcplus (fun c => c)) []
                (filter (within d)
                   (cross_product (foldl (merge_term Qcplus (fun c => c)) lP lQ) lS)))
  = forallb ok (foldl (merge_term Qcplus (fun c => c))
                  (foldl (merge_term Qcplus (fun c => c)) []
                     (filter (within d) (cross_product lP lS)))
                  (foldl (merge_term Qcplus (fun c => c)) []
                     (filter (within d) (cross_product lQ lS)))).
Proof.
  intros Hok. rewrite !foldl_merge_forallb by exact Hok.
  rewrite !forallb_kept_cross.
  rewrite (foldl_merge_forallb _ _ _ _ _ (row_forallb_on_degs ok Hok)).
  reflexivity.
Qed.
End Distributivity.

(** X19: with a common bound, [(P + Q) * S] and [P * S + Q * S] give every
    exponent pair the same coefficient and evaluate alike everywhere, also
    when products are truncated. *)
Theorem mul_distributes_over_add (P Q S : Polynome2D) :
  constructed P -> constructed Q ->
  degree P = degree Q -> degree P = degree S ->
  exists R T U V W,
    add P Q = Ok R /\ mul R S = Ok T
    /\ mul P S = Ok U /\ mul Q S = Ok V /\ add U V = Ok W
    /\ (forall k, coef_at k (coefficients T) = coef_at k (coefficients W))
    /\ (forall x y, eval T x y = eval W x y).
Proof.
  intros HP HQ Hd HdS.
  assert (HdQS : degree Q = degree S) by congruence.
  set (kept l := filter (within (degree P)) (cross_product l (coefficients S))).
  set (R := mkPolynome2D (degree P)
              (foldl (merge_term Qcplus (fun c => c)) (coefficients P) (coefficients Q))).
  set (T := mkPolynome2D (degree P)
              (foldl (merge_term Qcplus (fun c => c)) [] (kept (coefficients R)))).
  set (U := mkPolynome2D (degree P)
              (foldl (merge_term Qcplus (fun c => c)) [] (kept (coefficients P)))).
  set (V := mkPolynome2D (degree P)
              (foldl (merge_term Qcplus (fun c => c)) [] (kept (coefficients Q)))).
  set (W := mkPolynome2D (degree P)
              (foldl (merge_term Qcplus (fun c => c)) (coefficients U) (coefficients V))).
  assert (HU : constructed U /\ constructed V) by
    (split; apply within_constructed, foldl_merge_within;
       first [constructor | apply Forall_filter_within]).
  exists R, T, U, V, W.
  split; [exact (add_Ok P Q HP HQ Hd)|].
  split; [exact (mul_Ok R S HdS)|].
  split; [exact (mul_Ok P S HdS)|].
  split; [rewrite (mul_Ok Q S HdQS), <- Hd; reflexivity|].
  split; [exact (add_Ok U V (proj1 HU) (proj2 HU) eq_refl)|].
  split.
  - intros k. rewrite !coef_at_sum.
    apply distrib_sum, coef_selector_additive.
  - intros x y. rewrite !eval_guarded. f_equal.
    + apply distrib_forallb, term_ok_on_degs.
    + apply distrib_sum, term_value_additive.
Qed.

Lemma mul_distributes_over_add_witness :
  exists R T U V W,
    add poly plain_x = Ok R /\ mul R square_plus_one = Ok T
    /\ mul poly square_plus_one = Ok U /\ mul plain_x square_plus_one = Ok V
    /\ add U V = Ok W
    /\ (forall k, coef_at k (coefficients T) = coef_at k (coefficients W))
    /\ (forall x y, eval T x y = eval W x y).
Proof.
  apply (mul_distributes_over_add poly plain_x square_plus_one); reflexivity.
Defined.
